(** * problem_matcher: the match engine of [mod.ts]

    A shallow embedding of [mod.ts] (validator, mode dispatcher, single
    matcher, loop matcher and field projector) together with the properties
    of the engine that the specification states.

    Conventions of the embedding.
    - A JavaScript call either returns a value or throws: [result A].
      The text of a thrown [Error] is kept, as the messages are observable.
    - A match record ([Record<string, string | undefined>]) is a finite map
      from property names to [option string]; [Some None] is an own property
      whose value is [undefined].  Property names are ordinary names.
    - A pattern object is its [regexp], its [loop] flag and the remaining
      properties in enumeration order, each holding an integer.
    - Strings are sequences of code units below 256.
    - The regular-expression engine is not part of the repository; it is an
      interface ([RegExpEngine]) and every general theorem holds for every
      engine.  [regexp] is a regular-expression source, so building the
      [RegExp] succeeds. *)

From Stdlib Require Import String Ascii List ZArith Lia Bool DecimalString.
From stdpp Require Import base option list strings gmap fin_maps.

Local Open Scope string_scope.
Local Open Scope Z_scope.
Local Open Scope list_scope.

(** ** Results of calls that may throw *)

Inductive result (A : Type) : Type :=
| Ok (a : A)
| Throw (msg : string).
Arguments Ok {A} a.
Arguments Throw {A} msg.

(** Sequencing: a thrown error skips the rest ([x ← r; k]). *)
#[global] Instance result_bind : MBind result := fun A B k r =>
  match r with
  | Ok a => k a
  | Throw msg => Throw msg
  end.

(** ** Strings: [split], [trim], number formatting *)

Definition newline : ascii := "010"%char.

(** The first line of [s] and the lines after it. *)
Fixpoint split_first (s : string) : string * list string :=
  match s with
  | EmptyString => (EmptyString, [])
  | String c s' =>
      let '(l, ls) := split_first s' in
      if Ascii.eqb c newline then (EmptyString, l :: ls) else (String c l, ls)
  end.

(** [input.split("\n")]: never empty, the empty input has one empty line. *)
Definition split_lines (input : string) : list string :=
  let '(l, ls) := split_first input in l :: ls.

(** White space and line terminators below code 256. *)
Definition is_white_space (c : ascii) : bool :=
  let n := nat_of_ascii c in
  ((9 <=? n) && (n <=? 13) || (n =? 32) || (n =? 160))%nat.

Fixpoint trimStart (s : string) : string :=
  match s with
  | EmptyString => EmptyString
  | String c s' => if is_white_space c then trimStart s' else s
  end.

Fixpoint trimEnd (s : string) : string :=
  match s with
  | EmptyString => EmptyString
  | String c s' =>
      match trimEnd s' with
      | EmptyString => if is_white_space c then EmptyString else String c EmptyString
      | t => String c t
      end
  end.

(** [s.trim()] *)
Definition trim (s : string) : string := trimEnd (trimStart s).

(** [`${g}`] for an integer [g]. *)
Definition Z_to_string (g : Z) : string := NilZero.string_of_int (Z.to_int g).

(** JavaScript truthiness of a [string | undefined] value. *)
Definition truthy (v : option string) : bool :=
  match v with
  | Some (String _ _) => true
  | _ => false
  end.

(** ** Data model *)

Record Pattern : Type := {
  regexp : string;
  loop : option bool;
  fields : list (string * Z)
}.

Record Matcher : Type := {
  owner : option string;
  severity : option string;
  pattern : list Pattern
}.

(** [x.loop] used as a condition. *)
Definition is_loop (x : Pattern) : bool :=
  match loop x with
  | Some true => true
  | _ => false
  end.

(** A match record. *)
Abbreviation MatchResult := (gmap string (option string)).

(** [r.k], reading a property that may be missing. *)
Definition prop (r : MatchResult) (k : string) : option string :=
  match r !! k with
  | Some v => v
  | None => None
  end.

(** [{ ...context, ...r }] where [r] may be [null]. *)
Definition spread (context : MatchResult) (r : option MatchResult) : MatchResult :=
  match r with
  | Some r => r ∪ context
  | None => context
  end.

(** ** Error messages *)

Definition group0_msg : string :=
  "Group 0 is not a valid capture group (it contains the entire matched string)".

Definition invalid_group_msg (g : Z) (k : string) : string :=
  "Invalid capture group provided. Group " +:+ Z_to_string g +:+ " (" +:+ k
    +:+ ") does not exist in regexp".

Definition pattern_array_msg : string :=
  "matcher.pattern must be an array with at least one value".

Definition unsupported_msg : string :=
  "Unsupported pattern configuration. We currently support single pattern and multi-line loop pattern configurations".

Definition no_owner_msg : string := "No matcher.owner provided".

(** Reading a property of [undefined] is a [TypeError]. *)
Definition undefined_read_msg (p : string) : string :=
  "Cannot read properties of undefined (reading '" +:+ p +:+ "')".

(** ** The regular-expression engine *)

Class RegExpEngine : Type := {
  RegExp : Type;
  (** [new RegExp(source)] *)
  RegExp_new : string -> RegExp;
  (** [line.match(re)] for a [re] without flags: [None] is [null], otherwise
      the whole match followed by the capture groups, a group that did not
      take part being [undefined]. *)
  String_match : string -> RegExp -> option (list (option string))
}.

(** [s[g]] on a match array. *)
Definition group (s : list (option string)) (g : Z) : option string :=
  if g <? 0 then None
  else match nth_error s (Z.to_nat g) with
       | Some v => v
       | None => None
       end.

Definition is_reserved (k : string) : bool :=
  String.eqb k "regexp" || String.eqb k "loop".

Section Engine.

Context `{E : RegExpEngine}.

(** *** Field projector: [runRegExp] of [mod.ts] *)

(** The [for (const k in pattern)] loop. *)
Fixpoint runRegExp_fields (s : list (option string)) (fs : list (string * Z))
    (matches : MatchResult) : result MatchResult :=
  match fs with
  | [] => Ok matches
  | (k, v) :: fs' =>
      if is_reserved k then runRegExp_fields s fs' matches
      else if v =? 0 then Throw group0_msg
      else
        match group s v with
        | Some (String _ _ as str) =>
            runRegExp_fields s fs' (<[k := Some (trim str)]> matches)
        | _ => Throw (invalid_group_msg v k)
        end
  end.

Definition runRegExp (re : RegExp) (line : string) (p : Pattern) (m : Matcher)
    : result (option MatchResult) :=
  match String_match line re with
  | None => Ok None
  | Some s =>
      matches ← runRegExp_fields s (fields p) ∅;
      let matches :=
        if negb (truthy (prop matches "severity"))
        then <["severity" := severity m]> matches
        else matches in
      Ok (Some matches)
  end.

(** The same loop in the typed revision of [mod.ts]
    ([for (const k of Object.keys(pattern))], [!val || !s[val]]). *)
Fixpoint runRegExp_keys (s : list (option string)) (fs : list (string * Z))
    (matches : MatchResult) : result MatchResult :=
  match fs with
  | [] => Ok matches
  | (k, val) :: fs' =>
      if is_reserved k then runRegExp_keys s fs' matches
      else if val =? 0 then Throw group0_msg
      else if (val =? 0) || negb (truthy (group s val))
      then Throw (invalid_group_msg val k)
      else
        match group s val with
        | Some str => runRegExp_keys s fs' (<[k := Some (trim str)]> matches)
        | None => Throw (undefined_read_msg "trim")
        end
  end.

(** *** Single matcher *)

(** The [for (const line of input.split("\n"))] loop; [lines] is the
    accumulator of the source. *)
Fixpoint singleMatch_lines (re : RegExp) (p : Pattern) (m : Matcher)
    (input_lines : list string) (lines : list MatchResult)
    : result (list MatchResult) :=
  match input_lines with
  | [] => Ok lines
  | line :: rest =>
      matches ← runRegExp re line p m;
      match matches with
      | None => singleMatch_lines re p m rest lines
      | Some matches => singleMatch_lines re p m rest (lines ++ [matches])
      end
  end.

Definition singleMatch (m : Matcher) (input : string) : result (list MatchResult) :=
  match pattern m with
  | [] => Throw (undefined_read_msg "regexp")
  | p :: _ =>
      let re := RegExp_new (regexp p) in
      singleMatch_lines re p m (split_lines input) []
  end.

(** *** Loop matcher *)

(** The innermost loop, [while ((line = lines.shift()) !== undefined)].
    Returns the variable [line] as the loop leaves it ([None] is
    [undefined]), the queue and the accumulated matches. *)
Fixpoint loop_phase (re : RegExp) (x : Pattern) (m : Matcher)
    (context : MatchResult) (lines : list string) (matches : list MatchResult)
    : result (option string * list string * list MatchResult) :=
  match lines with
  | [] => Ok (None, [], matches)
  | line :: lines' =>
      if String.eqb line "" then loop_phase re x m context lines' matches
      else
        r ← runRegExp re line x m;
        match r with
        | None => Ok (Some line, line :: lines', matches)
        | Some r => loop_phase re x m context lines' (matches ++ [r ∪ context])
        end
  end.

(** The loop over the patterns, [while ((x = patterns.shift()))].
    [line] is [None] once the innermost loop has run the queue dry. *)
Fixpoint run_patterns (m : Matcher) (patterns : list Pattern)
    (context : MatchResult) (line : option string) (lines : list string)
    (matches : list MatchResult) : result (list string * list MatchResult) :=
  match patterns with
  | [] => Ok (lines, matches)
  | x :: patterns' =>
      let re := RegExp_new (regexp x) in
      r ← match line with
          | Some line => runRegExp re line x m
          | None => Throw (undefined_read_msg "match")
          end;
      if negb (is_loop x)
      then run_patterns m patterns' (spread context r) line lines matches
      else
        '(line', lines', matches') ← loop_phase re x m context lines matches;
        run_patterns m patterns' context line' lines' matches'
  end.

(** The outer loop, [while (lines.length)].  [fuel] bounds the number of
    iterations; [None] means that the bound was reached. *)
Fixpoint loop_outer (fuel : nat) (m : Matcher) (lines : list string)
    (matches : list MatchResult) : option (result (list MatchResult)) :=
  match lines with
  | [] => Some (Ok matches)
  | line :: rest =>
      match fuel with
      | O => None
      | S fuel' =>
          match run_patterns m (pattern m) ∅ (Some line) rest matches with
          | Throw msg => Some (Throw msg)
          | Ok (lines', matches') => loop_outer fuel' m lines' matches'
          end
      end
  end.

(** The outer loop is given one iteration per line of the input, which is
    always enough. *)
Definition loopMatch (m : Matcher) (input : string)
    : option (result (list MatchResult)) :=
  let lines := split_lines input in
  loop_outer (length lines) m lines [].

(** *** Validator and mode dispatcher *)

Definition validateMatcher (m : Matcher) : result unit :=
  if (length (pattern m) <? 1)%nat then Throw pattern_array_msg else Ok tt.

(** The default export of [mod.ts]. *)
Definition match_ (m : Matcher) (input : string)
    : option (result (list MatchResult)) :=
  match validateMatcher m with
  | Throw msg => Some (Throw msg)
  | Ok _ =>
      if (length (pattern m) =? 1)%nat then Some (singleMatch m input)
      else
        match last (pattern m) with
        | None => Some (Throw (undefined_read_msg "loop"))
        | Some loopPattern =>
            if is_loop loopPattern then loopMatch m input
            else Some (Throw unsupported_msg)
        end
  end.

End Engine.

(** ** Vocabulary of the projector properties *)

(** A field whose handling does not throw: a reserved key, or a group
    index other than 0 with non-empty captured text. *)
Definition field_passes (s : list (option string)) (kv : string * Z) : bool :=
  is_reserved kv.1 || (negb (kv.2 =? 0) && truthy (group s kv.2)).

(** The record built from fields that all pass. *)
Definition fields_record (s : list (option string)) (fs : list (string * Z))
    (matches : MatchResult) : MatchResult :=
  fold_left (fun acc kv =>
    if is_reserved kv.1 then acc
    else <[kv.1 := Some (trim (default "" (group s kv.2)))]> acc) fs matches.

(** An empty capture read as an absent one. *)
Definition empty_as_absent (s : list (option string)) : list (option string) :=
  map (fun v => if truthy v then v else None) s.

(** [m] with its [owner] replaced. *)
Definition with_owner (o : option string) (m : Matcher) : Matcher :=
  {| owner := o; severity := severity m; pattern := pattern m |}.

(** ** Vocabulary of the loop-mode properties *)

Section LoopVocabulary.

Context `{E : RegExpEngine}.

(** The context built by the non-loop patterns [ctxs], every one of them
    run against the same [line]. *)
Fixpoint context_fields (m : Matcher) (ctxs : list Pattern) (line : string)
    (context : MatchResult) : result MatchResult :=
  match ctxs with
  | [] => Ok context
  | x :: ctxs' =>
      r ← runRegExp (RegExp_new (regexp x)) line x m;
      context_fields m ctxs' line (spread context r)
  end.

(** What the loop phase of [x] appends for one line of the queue. *)
Definition phase_record (re : RegExp) (x : Pattern) (m : Matcher)
    (context : MatchResult) (line : string) : option MatchResult :=
  if String.eqb line "" then None
  else match runRegExp re line x m with
       | Ok (Some r) => Some (r ∪ context)
       | _ => None
       end.

Definition phase_records (re : RegExp) (x : Pattern) (m : Matcher)
    (context : MatchResult) (lines : list string) : list MatchResult :=
  omap (phase_record re x m context) lines.

(** A line that the loop phase takes from the queue and does not put back. *)
Definition consumable (re : RegExp) (x : Pattern) (m : Matcher) (line : string) : Prop :=
  line = "" \/ exists r, runRegExp re line x m = Ok (Some r).

(** [rec] is the record of a successful match of the loop pattern [x]
    against the non-blank [line], overlaid onto some context. *)
Definition emitted_by (m : Matcher) (x : Pattern) (line : string)
    (rec : MatchResult) : Prop :=
  line <> "" /\ is_loop x = true /\
  exists r context,
    runRegExp (RegExp_new (regexp x)) line x m = Ok (Some r)
    /\ rec = r ∪ context.

End LoopVocabulary.

(** [attributed P lines out]: the records [out] come from distinct lines of
    [lines], in the order of the lines, each related to its line by [P]. *)
Inductive attributed (P : string -> MatchResult -> Prop)
    : list string -> list MatchResult -> Prop :=
| attributed_nil : attributed P [] []
| attributed_skip l ls out :
    attributed P ls out -> attributed P (l :: ls) out
| attributed_emit l ls rec out :
    P l rec -> attributed P ls out -> attributed P (l :: ls) (rec :: out).

(** ** A sample engine and sample matchers

    [sample_answers] lists what an ECMAScript engine answers on the
    (source, line) pairs that the examples below evaluate.  Pairs that are
    not listed are reported as no match; no example evaluates one. *)

Definition re_colon : string := "^([^:]+):([^:]+):([^:]+)$".
Definition re_file : string := "^([^\s].*)$".
Definition re_entry : string :=
  "^\s+(\d+):(\d+)\s+(error|warning|info)\s+(.*)\s\s+(.*)$".
Definition re_optional : string := "^(a*)b(c)?$".

Definition line_colon : string := "Some Message:/path/to/file.js:12".
Definition line_entry1 : string := "  1:0  error  bad  strict".
Definition line_entry2 : string := "  5:10  warning  unused var     no-unused-vars".
Definition line_entry3 : string := "  2:3  info  note  some-rule".

Definition sample_answers : list (string * string * option (list (option string))) :=
  [ (re_colon, line_colon,
      Some [Some line_colon; Some "Some Message"; Some "/path/to/file.js"; Some "12"]);
    (re_colon, "no match here", None);
    (re_colon, "foo.js", None);
    (re_file, "foo.js", Some [Some "foo.js"; Some "foo.js"]);
    (re_file, "bar.js", Some [Some "bar.js"; Some "bar.js"]);
    (re_file, line_entry1, None);
    (re_entry, "foo.js", None);
    (re_entry, "bar.js", None);
    (re_entry, line_entry1,
      Some [Some line_entry1; Some "1"; Some "0"; Some "error"; Some "bad"; Some "strict"]);
    (re_entry, line_entry2,
      Some [Some line_entry2; Some "5"; Some "10"; Some "warning";
            Some "unused var   "; Some "no-unused-vars"]);
    (re_entry, line_entry3,
      Some [Some line_entry3; Some "2"; Some "3"; Some "info"; Some "note";
            Some "some-rule"]);
    (re_optional, "b", Some [Some "b"; Some ""; None]) ].

Fixpoint sample_lookup (t : list (string * string * option (list (option string))))
    (source line : string) : option (list (option string)) :=
  match t with
  | [] => None
  | (src, l, answer) :: t' =>
      if String.eqb src source && String.eqb l line then answer
      else sample_lookup t' source line
  end.

#[global] Instance sample_engine : RegExpEngine := {|
  RegExp := string;
  RegExp_new := fun source => source;
  String_match := fun line re => sample_lookup sample_answers re line
|}.

(** [validMatcher] of the test suite, and the same matcher with an empty
    [owner]. *)
Definition colon_pattern : Pattern :=
  {| regexp := re_colon; loop := None;
     fields := [("message", 1); ("file", 2); ("line", 3)] |}.

Definition validMatcher : Matcher :=
  {| owner := Some "Deno.test-matcher"; severity := Some "Error";
     pattern := [colon_pattern] |}.

Definition ownerless_matcher : Matcher :=
  {| owner := Some ""; severity := Some "Error"; pattern := [colon_pattern] |}.

(** The matcher of the test "pattern index provided that matches group 0". *)
Definition group0_pattern : Pattern :=
  {| regexp := re_colon; loop := None; fields := [("message", 0)] |}.

Definition group0_matcher : Matcher :=
  {| owner := Some "Deno.test-matcher"; severity := None;
     pattern := [group0_pattern] |}.

(** A field without capture group enumerated before a field mapped to
    group 0. *)
Definition code4_group0_pattern : Pattern :=
  {| regexp := re_colon; loop := None; fields := [("code", 4); ("message", 0)] |}.

(** [eslintLoopMatcher] of the test suite. *)
Definition file_pattern : Pattern :=
  {| regexp := re_file; loop := None; fields := [("file", 1)] |}.

Definition entry_pattern : Pattern :=
  {| regexp := re_entry; loop := Some true;
     fields := [("line", 1); ("column", 2); ("severity", 3); ("message", 4);
                ("code", 5)] |}.

Definition eslintLoopMatcher : Matcher :=
  {| owner := Some "eslint-stylish"; severity := None;
     pattern := [file_pattern; entry_pattern] |}.

(** Two patterns, none of them a loop pattern (the test "unsupported
    pattern configuration"). *)
Definition multipleNoLoopMatcher : Matcher :=
  {| owner := Some "Deno.test-matcher"; severity := None;
     pattern := [ {| regexp := "^([^:]+)"; loop := None; fields := [("message", 1)] |};
                  {| regexp := "^([^;]+)"; loop := None; fields := [("message", 1)] |} ] |}.

(** Patterns over [re_optional], whose first group can match the empty
    string. *)
Definition optional_pattern : Pattern :=
  {| regexp := re_optional; loop := None; fields := [("message", 1)] |}.

Definition optional_group0_pattern : Pattern :=
  {| regexp := re_optional; loop := None; fields := [("file", 0); ("message", 1)] |}.

Definition optional_matcher : Matcher :=
  {| owner := Some "optional"; severity := None; pattern := [optional_pattern] |}.

(** A report in the shape of the loop-mode example of the README. *)
Definition sample_report : string :=
  String.concat (String newline "")
    ["foo.js"; line_entry1; ""; line_entry2; "bar.js"; line_entry3].

Definition colon_record : MatchResult :=
  {[ "message" := Some "Some Message"; "file" := Some "/path/to/file.js";
     "line" := Some "12"; "severity" := Some "Error" ]}.

Definition foo_context : MatchResult :=
  {[ "file" := Some "foo.js"; "severity" := None ]}.

Definition entry_record (file line column sev message code : string) : MatchResult :=
  {[ "file" := Some file; "line" := Some line; "column" := Some column;
     "severity" := Some sev; "message" := Some message; "code" := Some code ]}.

Definition sample_records : list MatchResult :=
  [ entry_record "foo.js" "1" "0" "error" "bad" "strict";
    entry_record "foo.js" "5" "10" "warning" "unused var" "no-unused-vars";
    entry_record "bar.js" "2" "3" "info" "note" "some-rule" ].

(** ** Properties of the field projector *)

Section Projector.

Context `{E : RegExpEngine}.

Lemma runRegExp_keys_eq s fs acc :
  runRegExp_keys s fs acc = runRegExp_fields s fs acc.
Proof.
  revert acc. induction fs as [|[k v] fs IH]; intros acc; simpl; [done|].
  destruct (is_reserved k); [apply IH|].
  destruct (v =? 0) eqn:Hv; [done|]. simpl.
  destruct (group s v) as [[|c t]|]; simpl; auto.
Qed.

Lemma runRegExp_no_match re line p m :
  String_match line re = None -> runRegExp re line p m = Ok None.
Proof. intros H. unfold runRegExp. by rewrite H. Qed.

Lemma fields_passing s pre rest acc :
  forallb (field_passes s) pre = true ->
  runRegExp_fields s (pre ++ rest) acc
  = runRegExp_fields s rest (fields_record s pre acc).
Proof.
  revert acc. induction pre as [|[k v] pre IH]; intros acc Hall; simpl in *; [done|].
  apply andb_true_iff in Hall as [Hkv Hall]. unfold field_passes in Hkv. simpl in Hkv.
  destruct (is_reserved k); simpl in *; [by apply IH|].
  apply andb_true_iff in Hkv as [Hv Hg]. apply negb_true_iff in Hv. rewrite Hv.
  destruct (group s v) as [[|c t]|]; simpl in *; try done. by apply IH.
Qed.

Lemma fields_all_passing s fs acc :
  forallb (field_passes s) fs = true ->
  runRegExp_fields s fs acc = Ok (fields_record s fs acc).
Proof.
  intros H. rewrite <- (app_nil_r fs) at 1. by rewrite fields_passing.
Qed.

Lemma fields_zero s k post acc :
  is_reserved k = false ->
  runRegExp_fields s ((k, 0) :: post) acc = Throw group0_msg.
Proof. intros Hk. simpl. by rewrite Hk. Qed.

Lemma fields_falsy s k g post acc :
  is_reserved k = false -> g <> 0 -> truthy (group s g) = false ->
  runRegExp_fields s ((k, g) :: post) acc = Throw (invalid_group_msg g k).
Proof.
  intros Hk Hg Ht. simpl. rewrite Hk.
  apply Z.eqb_neq in Hg. rewrite Hg.
  by destruct (group s g) as [[|c t]|].
Qed.

(** Once a field fails, the projection throws, whatever surrounds it. *)
Lemma fields_failing s pre kv post acc :
  field_passes s kv = false ->
  exists msg, runRegExp_fields s (pre ++ kv :: post) acc = Throw msg.
Proof.
  intros Hkv. revert acc. induction pre as [|[k v] pre IH]; intros acc; simpl.
  - destruct kv as [k v]. unfold field_passes in Hkv. simpl in Hkv.
    apply orb_false_iff in Hkv as [Hk Hkv]. rewrite Hk.
    destruct (v =? 0) eqn:Hv; [by eexists|]. simpl in Hkv.
    destruct (group s v) as [[|c t]|]; simpl in *; try done; by eexists.
  - destruct (is_reserved k); [apply IH|].
    destruct (v =? 0); [by eexists|].
    destruct (group s v) as [[|c t]|]; try by eexists. apply IH.
Qed.

(** With no index 0 among the fields, a failing projection reports an
    invalid capture group of one of the fields. *)
Lemma fields_failing_invalid s fs acc msg :
  Forall (fun kv : string * Z => kv.2 <> 0) fs ->
  runRegExp_fields s fs acc = Throw msg ->
  exists k g, In (k, g) fs /\ truthy (group s g) = false
              /\ msg = invalid_group_msg g k.
Proof.
  revert acc. induction fs as [|[k v] fs IH]; intros acc Hnz H; simpl in *; [done|].
  apply Forall_cons in Hnz as [Hv Hnz]. simpl in Hv.
  destruct (is_reserved k).
  { destruct (IH _ Hnz H) as (k' & g' & ? & ? & ?). exists k', g'. auto. }
  apply Z.eqb_neq in Hv. rewrite Hv in H.
  destruct (group s v) as [[|c t]|] eqn:Hg.
  - exists k, v. rewrite Hg. split; [by left|]. split; [done|congruence].
  - destruct (IH _ Hnz H) as (k' & g' & ? & ? & ?). exists k', g'. auto.
  - exists k, v. rewrite Hg. split; [by left|]. split; [done|congruence].
Qed.

Lemma group_empty_as_absent s g :
  truthy (group (empty_as_absent s) g) = truthy (group s g)
  /\ (truthy (group s g) = true -> group (empty_as_absent s) g = group s g).
Proof.
  unfold group, empty_as_absent. destruct (g <? 0); [done|].
  rewrite nth_error_map. destruct (nth_error s (Z.to_nat g)) as [[[|c t]|]|]; done.
Qed.

Lemma fields_empty_as_absent s fs acc :
  runRegExp_fields (empty_as_absent s) fs acc = runRegExp_fields s fs acc.
Proof.
  revert acc. induction fs as [|[k v] fs IH]; intros acc; simpl; [done|].
  destruct (is_reserved k); [apply IH|]. destruct (v =? 0); [done|].
  destruct (group_empty_as_absent s v) as [Ht Hg].
  destruct (group s v) as [[|c t]|] eqn:Hs; simpl in *.
  - by destruct (group (empty_as_absent s) v) as [[|c t]|].
  - rewrite Hg; [apply IH|done].
  - by destruct (group (empty_as_absent s) v) as [[|c t]|].
Qed.

(** Keys that the pattern does not list are left as they were. *)
Lemma fields_lookup_other s fs acc r (k : string) :
  runRegExp_fields s fs acc = Ok r -> ~ In k (map fst fs) -> r !! k = acc !! k.
Proof.
  revert acc. induction fs as [|[k' v] fs IH]; intros acc H Hk; simpl in *.
  - congruence.
  - destruct (is_reserved k'); [apply IH; tauto|].
    destruct (v =? 0); [done|].
    destruct (group s v) as [[|c t]|]; try done.
    rewrite (IH _ H); [|tauto]. apply lookup_insert_ne. tauto.
Qed.

(** A projection always carries an own [severity] property. *)
Lemma runRegExp_severity_cases re line p m r :
  runRegExp re line p m = Ok (Some r) ->
  r !! "severity" = Some (severity m)
  \/ exists v, r !! "severity" = Some (Some v) /\ truthy (Some v) = true.
Proof.
  unfold runRegExp. destruct (String_match line re) as [s|]; [|done].
  destruct (runRegExp_fields s (fields p) ∅) as [matches|] eqn:Hf; simpl; [|done].
  intros [= <-]. unfold prop.
  destruct (matches !! "severity") as [[[|c t]|]|] eqn:Hs; simpl.
  - left. apply lookup_insert_eq.
  - right. eauto.
  - left. apply lookup_insert_eq.
  - left. apply lookup_insert_eq.
Qed.

Lemma runRegExp_severity_default re line p m r :
  runRegExp re line p m = Ok (Some r) ->
  ~ In "severity" (map fst (fields p)) ->
  r !! "severity" = Some (severity m).
Proof.
  unfold runRegExp. destruct (String_match line re) as [s|]; [|done].
  destruct (runRegExp_fields s (fields p) ∅) as [matches|] eqn:Hf; simpl; [|done].
  intros [= <-] Hk. apply fields_lookup_other with (k := "severity") in Hf; [|done].
  unfold prop. rewrite Hf, lookup_empty. simpl. apply lookup_insert_eq.
Qed.

End Projector.

(** ** Properties of the loops *)

Section Loops.

Context `{E : RegExpEngine}.

Lemma attributed_none P ls : attributed P ls [].
Proof. induction ls; constructor; auto. Qed.

Lemma attributed_app P ls1 ls2 out1 out2 :
  attributed P ls1 out1 -> attributed P ls2 out2 ->
  attributed P (ls1 ++ ls2) (out1 ++ out2).
Proof.
  induction 1; intros H2; simpl;
    [done | apply attributed_skip | apply attributed_emit]; auto.
Qed.

Lemma attributed_impl (P Q : string -> MatchResult -> Prop) ls out :
  (forall l rec, P l rec -> Q l rec) -> attributed P ls out -> attributed Q ls out.
Proof.
  intros HPQ.
  induction 1; [apply attributed_nil | apply attributed_skip | apply attributed_emit];
    auto.
Qed.

Lemma attributed_In P ls out rec :
  attributed P ls out -> In rec out -> exists l, In l ls /\ P l rec.
Proof.
  induction 1 as [|l ls out _ IH|l ls rec' out HP _ IH]; intros Hin; simpl in *.
  - done.
  - destruct (IH Hin) as (l' & ? & ?). eauto.
  - destruct Hin as [<-|Hin]; [eauto|].
    destruct (IH Hin) as (l' & ? & ?). eauto.
Qed.

Lemma attributed_length P ls out :
  attributed P ls out -> (length out <= length ls)%nat.
Proof. induction 1; simpl; lia. Qed.

(** *** The loop phase *)

Lemma loop_phase_consume re x m ctx pre rest acc :
  Forall (consumable re x m) pre ->
  loop_phase re x m ctx (pre ++ rest) acc
  = loop_phase re x m ctx rest (acc ++ phase_records re x m ctx pre).
Proof.
  intros H. revert acc. induction H as [|l pre Hl _ IH]; intros acc; simpl.
  - by rewrite app_nil_r.
  - unfold phase_records. simpl. unfold phase_record at 1.
    destruct (String.eqb l "") eqn:Hb; [apply IH|].
    destruct Hl as [->|[r Hr]]; [done|]. rewrite Hr. simpl.
    rewrite IH. by rewrite <- app_assoc.
Qed.

Lemma loop_phase_exhausted re x m ctx pre acc :
  Forall (consumable re x m) pre ->
  loop_phase re x m ctx pre acc
  = Ok (None, [], acc ++ phase_records re x m ctx pre).
Proof.
  intros H. rewrite <- (app_nil_r pre) at 1. by rewrite loop_phase_consume.
Qed.

Lemma loop_phase_stop re x m ctx l rest acc :
  l <> "" -> runRegExp re l x m = Ok None ->
  loop_phase re x m ctx (l :: rest) acc = Ok (Some l, l :: rest, acc).
Proof.
  intros Hl Hr. simpl. apply String.eqb_neq in Hl. by rewrite Hl, Hr.
Qed.

(** Every run of the loop phase that returns has one of these two shapes. *)
Lemma loop_phase_inv re x m ctx lines acc line' lines' acc' :
  loop_phase re x m ctx lines acc = Ok (line', lines', acc') ->
  exists pre,
    lines = pre ++ lines'
    /\ Forall (consumable re x m) pre
    /\ acc' = acc ++ phase_records re x m ctx pre
    /\ ((line' = None /\ lines' = [])
        \/ exists l tail, line' = Some l /\ lines' = l :: tail /\ l <> ""
                          /\ runRegExp re l x m = Ok None).
Proof.
  revert acc. induction lines as [|l lines IH]; intros acc H; simpl in H.
  - injection H as <- <- <-. exists []. cbn. rewrite app_nil_r. repeat split; auto.
  - destruct (String.eqb l "") eqn:Hb.
    + apply String.eqb_eq in Hb as ->.
      destruct (IH _ H) as (pre & -> & Hpre & -> & Hend).
      exists ("" :: pre). repeat split; auto.
      constructor; [by left|done].
    + destruct (runRegExp re l x m) as [[r|]|] eqn:Hr; simpl in H; [| |done].
      * destruct (IH _ H) as (pre & -> & Hpre & -> & Hend).
        exists (l :: pre). split; [done|]. split; [constructor; [right; eauto|done]|].
        split; [|done]. unfold phase_records. simpl. unfold phase_record at 2.
        rewrite Hb, Hr. by rewrite <- app_assoc.
      * injection H as <- <- <-. exists []. cbn. rewrite app_nil_r.
        repeat split; auto. right. exists l, lines. repeat split; auto.
        by apply String.eqb_neq.
Qed.

Lemma phase_records_attributed re x m ctx pre :
  is_loop x = true -> re = RegExp_new (regexp x) ->
  attributed (emitted_by m x) pre (phase_records re x m ctx pre).
Proof.
  intros Hx ->. induction pre as [|l pre IH]; [constructor|].
  unfold phase_records. simpl. unfold phase_record at 1.
  destruct (String.eqb l "") eqn:Hb; [by constructor|].
  destruct (runRegExp _ l x m) as [[r|]|] eqn:Hr; try by constructor.
  constructor; [|done]. split; [by apply String.eqb_neq|]. split; [done|].
  by exists r, ctx.
Qed.

(** *** The loop over the patterns *)

Lemma run_patterns_context m ctxs ps ctx line lines acc :
  Forall (fun x => is_loop x = false) ctxs ->
  run_patterns m (ctxs ++ ps) ctx (Some line) lines acc
  = (ctx' ← context_fields m ctxs line ctx;
     run_patterns m ps ctx' (Some line) lines acc).
Proof.
  intros H. revert ctx. induction H as [|x ctxs Hx _ IH]; intros ctx; simpl; [done|].
  destruct (runRegExp (RegExp_new (regexp x)) line x m) as [r|]; simpl; [|done].
  rewrite Hx. simpl. apply IH.
Qed.

(** Whatever the patterns are, an iteration takes lines from the front of
    the queue only, and appends records of loop patterns in line order. *)
Lemma run_patterns_attributed m ps ctx line lines acc lines' acc' :
  run_patterns m ps ctx line lines acc = Ok (lines', acc') ->
  exists consumed new,
    lines = consumed ++ lines' /\ acc' = acc ++ new
    /\ attributed (fun l rec => exists x, In x ps /\ emitted_by m x l rec)
         consumed new.
Proof.
  revert ctx line lines acc.
  induction ps as [|x ps IH]; intros ctx line lines acc H; simpl in H.
  - injection H as <- <-. exists [], []. rewrite app_nil_r. repeat split; constructor.
  - destruct (match line with Some l => runRegExp _ l x m | None => _ end)
      as [r|]; simpl in H; [|done].
    destruct (is_loop x) eqn:Hx; simpl in H.
    + destruct (loop_phase _ x m ctx lines acc) as [[[l1 lines1] acc1]|] eqn:Hp;
        simpl in H; [|done].
      apply loop_phase_inv in Hp as (pre & -> & Hpre & -> & _).
      destruct (IH _ _ _ _ H) as (consumed & new & -> & -> & Hat).
      exists (pre ++ consumed), (phase_records (RegExp_new (regexp x)) x m ctx pre ++ new).
      rewrite <- !app_assoc. repeat split.
      apply attributed_app.
      * eapply attributed_impl; [|by apply phase_records_attributed].
        intros l rec Hl. exists x. split; [by left|done].
      * eapply attributed_impl; [|exact Hat].
        intros l rec (x' & ? & ?). exists x'. split; [by right|done].
    + destruct (IH _ _ _ _ H) as (consumed & new & -> & -> & Hat).
      exists consumed, new. repeat split.
      eapply attributed_impl; [|exact Hat].
      intros l rec (x' & ? & ?). exists x'. split; [by right|done].
Qed.

Lemma run_patterns_shrinks m ps ctx line lines acc lines' acc' :
  run_patterns m ps ctx line lines acc = Ok (lines', acc') ->
  (length lines' <= length lines)%nat.
Proof.
  intros H. apply run_patterns_attributed in H as (consumed & new & -> & _).
  rewrite length_app. lia.
Qed.

(** *** The outer loop *)

Lemma loop_outer_enough_fuel m fuel lines acc :
  (length lines <= fuel)%nat -> exists res, loop_outer fuel m lines acc = Some res.
Proof.
  revert lines acc. induction fuel as [|fuel IH]; intros lines acc Hlen.
  - destruct lines; simpl in *; [eauto|lia].
  - destruct lines as [|line rest]; simpl in *; [eauto|].
    destruct (run_patterns m (pattern m) ∅ (Some line) rest acc)
      as [[lines' acc']|] eqn:Hr; [|eauto].
    apply IH. apply run_patterns_shrinks in Hr. lia.
Qed.

Lemma loop_outer_more_fuel m fuel fuel' lines acc res :
  loop_outer fuel m lines acc = Some res -> (fuel <= fuel')%nat ->
  loop_outer fuel' m lines acc = Some res.
Proof.
  revert fuel' lines acc. induction fuel as [|fuel IH]; intros fuel' lines acc H Hle.
  - destruct lines; simpl in H; [|done]. by destruct fuel'.
  - destruct fuel' as [|fuel']; [lia|].
    destruct lines as [|line rest]; simpl in *; [done|].
    destruct (run_patterns m (pattern m) ∅ (Some line) rest acc)
      as [[lines' acc']|]; [|done].
    apply IH; [done|lia].
Qed.

Lemma loop_outer_attributed m fuel lines acc out :
  loop_outer fuel m lines acc = Some (Ok out) ->
  exists new,
    out = acc ++ new
    /\ attributed (fun l rec => exists x, In x (pattern m) /\ emitted_by m x l rec)
         lines new.
Proof.
  revert lines acc. induction fuel as [|fuel IH]; intros lines acc H.
  - destruct lines; simpl in H; [|done]. injection H as <-.
    exists []. rewrite app_nil_r. split; [done|constructor].
  - destruct lines as [|line rest]; simpl in H.
    { injection H as <-. exists []. rewrite app_nil_r. split; [done|constructor]. }
    destruct (run_patterns m (pattern m) ∅ (Some line) rest acc)
      as [[lines' acc']|] eqn:Hr; [|done].
    apply run_patterns_attributed in Hr as (consumed & new & -> & -> & Hat).
    destruct (IH _ _ H) as (new' & -> & Hat').
    exists (new ++ new'). rewrite <- app_assoc. split; [done|].
    constructor. by apply attributed_app.
Qed.

(** *** The single matcher *)

Lemma singleMatch_lines_skip re p m pre rest acc :
  Forall (fun l => String_match l re = None) pre ->
  singleMatch_lines re p m (pre ++ rest) acc = singleMatch_lines re p m rest acc.
Proof.
  induction 1 as [|l pre Hl _ IH]; simpl; [done|].
  by rewrite (runRegExp_no_match _ _ _ _ Hl).
Qed.

End Loops.

(** ** The properties of the specification *)

Section Specification.

Context `{E : RegExpEngine}.

Lemma fields_failing_prefix s pre kv post acc :
  field_passes s kv = false ->
  runRegExp_fields s (pre ++ kv :: post) acc = runRegExp_fields s (pre ++ [kv]) acc.
Proof.
  intros Hkv. revert acc. induction pre as [|[k v] pre IH]; intros acc; simpl.
  - destruct kv as [k v]. unfold field_passes in Hkv. simpl in Hkv.
    apply orb_false_iff in Hkv as [Hk Hkv]. rewrite Hk.
    destruct (v =? 0); [done|]. simpl in Hkv.
    by destruct (group s v) as [[|c t]|].
  - destruct (is_reserved k); [apply IH|]. destruct (v =? 0); [done|].
    destruct (group s v) as [[|c t]|]; auto.
Qed.

Lemma runRegExp_throws re line p m s msg :
  String_match line re = Some s ->
  runRegExp_fields s (fields p) ∅ = Throw msg ->
  runRegExp re line p m = Throw msg.
Proof. intros Hs Hf. unfold runRegExp. by rewrite Hs, Hf. Qed.

(** C1, as the code has it.  A pattern that maps a field to group 0 throws
    only on lines that its regular expression matches; on the others the
    projector returns [null].  On a matching line it always throws, and the
    error is the group-0 error when every field enumerated before the
    zero-mapped one has non-empty captured text. *)
Theorem runRegExp_group0 (re : RegExp) (line : string) (p : Pattern) (m : Matcher)
    (pre post : list (string * Z)) (k : string) :
  fields p = pre ++ (k, 0) :: post ->
  is_reserved k = false ->
  (String_match line re = None -> runRegExp re line p m = Ok None)
  /\ (forall s, String_match line re = Some s ->
        (exists msg, runRegExp re line p m = Throw msg)
        /\ (forallb (field_passes s) pre = true ->
            runRegExp re line p m = Throw group0_msg)).
Proof.
  intros Hf Hk. split; [apply runRegExp_no_match|].
  intros s Hs. split.
  - destruct (fields_failing s pre (k, 0) post ∅) as [msg Hmsg].
    { unfold field_passes. simpl. by rewrite Hk. }
    exists msg. apply (runRegExp_throws _ _ _ _ s); [done|]. by rewrite Hf.
  - intros Hpre. apply (runRegExp_throws _ _ _ _ s); [done|].
    rewrite Hf, fields_passing by done. by apply fields_zero.
Qed.

(** C10, as the code has it.  When the regular expression matches and a
    configured field names a group of the match whose text is empty or
    missing, the projector throws instead of producing an empty value.  The
    error is the invalid-capture-group error of that field when the fields
    before it pass, and the invalid-capture-group error of some field up to
    it when no field before it is mapped to group 0.  An empty capture and
    an absent one give the same outcome, in both revisions of the loop over
    the fields. *)
Theorem runRegExp_empty_capture (re : RegExp) (line : string) (p : Pattern)
    (m : Matcher) (s : list (option string)) (pre post : list (string * Z))
    (k : string) (g : Z) :
  String_match line re = Some s ->
  fields p = pre ++ (k, g) :: post ->
  is_reserved k = false ->
  0 < g -> (Z.to_nat g < length s)%nat ->
  truthy (group s g) = false ->
  (exists msg, runRegExp re line p m = Throw msg)
  /\ (forallb (field_passes s) pre = true ->
      runRegExp re line p m = Throw (invalid_group_msg g k))
  /\ (Forall (fun kv : string * Z => kv.2 <> 0) pre ->
      exists k' g', In (k', g') (pre ++ [(k, g)])
                    /\ runRegExp re line p m = Throw (invalid_group_msg g' k'))
  /\ runRegExp_fields (empty_as_absent s) (fields p) ∅
     = runRegExp_fields s (fields p) ∅
  /\ runRegExp_keys s (fields p) ∅ = runRegExp_fields s (fields p) ∅.
Proof.
  intros Hs Hf Hk Hg Hlen Ht.
  assert (Hfail : field_passes s (k, g) = false).
  { unfold field_passes. simpl. rewrite Hk, Ht. by rewrite andb_false_r. }
  split; [|split; [|split; [|split; [|apply runRegExp_keys_eq]]]].
  - destruct (fields_failing s pre (k, g) post ∅ Hfail) as [msg Hmsg].
    exists msg. apply (runRegExp_throws _ _ _ _ s); [done|]. by rewrite Hf.
  - intros Hpre. apply (runRegExp_throws _ _ _ _ s); [done|].
    rewrite Hf, fields_passing by done. apply fields_falsy; [done|lia|done].
  - intros Hnz.
    destruct (fields_failing s pre (k, g) [] ∅ Hfail) as [msg Hmsg].
    destruct (fields_failing_invalid s (pre ++ [(k, g)]) ∅ msg)
      as (k' & g' & Hin & _ & ->); [|done|].
    { apply Forall_app. split; [done|]. constructor; [simpl; lia|constructor]. }
    exists k', g'. split; [done|].
    apply (runRegExp_throws _ _ _ _ s); [done|].
    by rewrite Hf, fields_failing_prefix.
  - apply fields_empty_as_absent.
Qed.

Lemma singleMatch_lines_attributed re p m lines acc out :
  singleMatch_lines re p m lines acc = Ok out ->
  exists new,
    out = acc ++ new
    /\ attributed (fun l rec => runRegExp re l p m = Ok (Some rec)) lines new.
Proof.
  revert acc. induction lines as [|l lines IH]; intros acc H; simpl in H.
  - injection H as <-. exists []. rewrite app_nil_r. split; [done|constructor].
  - destruct (runRegExp re l p m) as [[r|]|] eqn:Hr; simpl in H; [| |done].
    + destruct (IH _ H) as (new & -> & Hat). exists (r :: new).
      rewrite <- app_assoc. split; [done|]. by apply attributed_emit.
    + destruct (IH _ H) as (new & -> & Hat). exists new.
      split; [done|]. by apply attributed_skip.
Qed.

Lemma phase_records_severity re x m ctx pre :
  ~ In "severity" (map fst (fields x)) ->
  Forall (fun rec : MatchResult => rec !! "severity" = Some (severity m))
    (phase_records re x m ctx pre).
Proof.
  intros Hk. unfold phase_records.
  induction pre as [|l pre IH]; [constructor|]. simpl. unfold phase_record at 1.
  destruct (String.eqb l ""); [exact IH|].
  destruct (runRegExp re l x m) as [[r|]|] eqn:Hr; try exact IH.
  constructor; [|exact IH].
  apply lookup_union_Some_l. by eapply runRegExp_severity_default.
Qed.

(** C7.  Every record of the output is the projection [r] of a pattern
    that emits records (the single pattern, or a loop pattern) on a line of
    the input, overlaid onto a context, and its [severity] is that of [r],
    never that of the context: a non-empty captured text or else
    [matcher.severity].  When the emitting pattern has no [severity] field,
    it is [matcher.severity], [undefined] included; so it is for every
    record when no emitting pattern has one, and for every record that the
    loop phase of a pattern without [severity] field appends, whatever the
    context holds. *)
Theorem severity_fallback (m : Matcher) (input : string)
    (out : list MatchResult) (rec : MatchResult) :
  match_ m input = Some (Ok out) -> In rec out ->
  (exists x line r context,
     In x (pattern m)
     /\ (length (pattern m) = 1%nat \/ is_loop x = true)
     /\ In line (split_lines input)
     /\ runRegExp (RegExp_new (regexp x)) line x m = Ok (Some r)
     /\ rec = r ∪ context
     /\ rec !! "severity" = r !! "severity"
     /\ (prop rec "severity" = severity m
         \/ exists v, prop rec "severity" = Some v /\ v <> "")
     /\ (~ In "severity" (map fst (fields x)) ->
         rec !! "severity" = Some (severity m)
         /\ prop rec "severity" = severity m))
  /\ ((forall x, In x (pattern m) ->
         length (pattern m) = 1%nat \/ is_loop x = true ->
         ~ In "severity" (map fst (fields x))) ->
      rec !! "severity" = Some (severity m)
      /\ prop rec "severity" = severity m)
  /\ (forall re x context lines acc line' lines' acc',
        ~ In "severity" (map fst (fields x)) ->
        loop_phase re x m context lines acc = Ok (line', lines', acc') ->
        exists new,
          acc' = acc ++ new
          /\ Forall (fun rec' : MatchResult =>
                       rec' !! "severity" = Some (severity m)) new).
Proof.
  intros Hout Hin.
  assert (Hsev : forall x line r context,
    runRegExp (RegExp_new (regexp x)) line x m = Ok (Some r) ->
    (r ∪ context) !! "severity" = r !! "severity"
    /\ (prop (r ∪ context) "severity" = severity m
        \/ exists v, prop (r ∪ context) "severity" = Some v /\ v <> "")
    /\ (~ In "severity" (map fst (fields x)) ->
        (r ∪ context) !! "severity" = Some (severity m)
        /\ prop (r ∪ context) "severity" = severity m)).
  { intros x line r context Hr. split; [|split].
    - destruct (runRegExp_severity_cases _ _ _ _ _ Hr) as [Hs|(v & Hs & _)];
        rewrite Hs; by apply lookup_union_Some_l.
    - destruct (runRegExp_severity_cases _ _ _ _ _ Hr) as [Hs|(v & Hs & Hv)];
        apply (lookup_union_Some_l _ context) in Hs; unfold prop; rewrite Hs.
      + by left.
      + right. exists v. split; [done|]. by intros ->.
    - intros Hk.
      assert ((r ∪ context) !! "severity" = Some (severity m)) as Hl.
      { apply lookup_union_Some_l. by eapply runRegExp_severity_default. }
      split; [done|]. unfold prop. by rewrite Hl. }
  assert (Hemit : exists x line r context,
     In x (pattern m)
     /\ (length (pattern m) = 1%nat \/ is_loop x = true)
     /\ In line (split_lines input)
     /\ runRegExp (RegExp_new (regexp x)) line x m = Ok (Some r)
     /\ rec = r ∪ context
     /\ rec !! "severity" = r !! "severity"
     /\ (prop rec "severity" = severity m
         \/ exists v, prop rec "severity" = Some v /\ v <> "")
     /\ (~ In "severity" (map fst (fields x)) ->
         rec !! "severity" = Some (severity m)
         /\ prop rec "severity" = severity m)).
  { unfold match_ in Hout. destruct (validateMatcher m); [|done].
    destruct (Nat.eqb_spec (length (pattern m)) 1) as [Hone|Hone].
    - injection Hout as H. unfold singleMatch in H.
      destruct (pattern m) as [|p ps] eqn:Hp; [done|].
      apply singleMatch_lines_attributed in H as (new & -> & Hat).
      destruct (attributed_In _ _ _ _ Hat Hin) as (l & Hl & Hr).
      exists p, l, rec, ∅. split; [by left|]. split; [by left|].
      split; [done|]. split; [done|].
      assert (rec = rec ∪ ∅) as Heq by (by rewrite (right_id_L ∅ (∪))).
      split; [done|]. split; [done|].
      destruct (Hsev p l rec ∅ Hr) as (_ & H2 & H3).
      rewrite <- Heq in H2, H3. by split.
    - destruct (last (pattern m)) as [lp|]; [|done].
      destruct (is_loop lp); [|done].
      unfold loopMatch in Hout.
      apply loop_outer_attributed in Hout as (new & -> & Hat).
      destruct (attributed_In _ _ _ _ Hat Hin) as (l & Hl & x & Hx & Hem).
      destruct Hem as (_ & Hloop & r & context & Hr & ->).
      exists x, l, r, context. split; [done|]. split; [by right|].
      do 3 (split; [done|]). by eapply Hsev. }
  split; [exact Hemit|]. split.
  - intros Hall. destruct Hemit as (x & _ & _ & _ & Hx & Hem & _ & _ & _ & _ & _ & Hk).
    apply Hk. by apply Hall.
  - intros re x context lines acc line' lines' acc' Hk Hph.
    apply loop_phase_inv in Hph as (pre & _ & _ & -> & _).
    eexists. split; [done|]. by apply phase_records_severity.
Qed.

(** C9.  More than one pattern and a last pattern whose [loop] is not true:
    the engine throws the unsupported-configuration error, whatever the
    input. *)
Theorem unsupported_configuration (m : Matcher) (input : string) (lp : Pattern) :
  (1 < length (pattern m))%nat ->
  last (pattern m) = Some lp ->
  is_loop lp = false ->
  match_ m input = Some (Throw unsupported_msg).
Proof.
  intros Hlen Hlast Hloop. unfold match_, validateMatcher.
  destruct (Nat.ltb_spec (length (pattern m)) 1); [lia|].
  destruct (Nat.eqb_spec (length (pattern m)) 1); [lia|].
  by rewrite Hlast, Hloop.
Qed.

(** C6.  Loop matching terminates: an outer iteration leaves the queue
    strictly shorter than it found it, so one iteration per line of input
    is enough, more iterations change nothing, and the engine always
    produces a result. *)
Theorem loopMatch_terminates (m : Matcher) (input : string) :
  (exists res, loopMatch m input = Some res)
  /\ (exists res, match_ m input = Some res)
  /\ (forall fuel, (length (split_lines input) <= fuel)%nat ->
        loop_outer fuel m (split_lines input) [] = loopMatch m input)
  /\ (forall fuel lines acc, (length lines <= fuel)%nat ->
        exists res, loop_outer fuel m lines acc = Some res)
  /\ (forall line rest acc lines' acc',
        run_patterns m (pattern m) ∅ (Some line) rest acc = Ok (lines', acc') ->
        (length lines' < length (line :: rest))%nat).
Proof.
  assert (Hloop : exists res, loopMatch m input = Some res).
  { unfold loopMatch. by apply loop_outer_enough_fuel. }
  split; [done|]. split; [|split; [|split]].
  - unfold match_. destruct (validateMatcher m); [|eauto].
    destruct (length (pattern m) =? 1)%nat; [eauto|].
    destruct (last (pattern m)) as [lp|]; [|eauto].
    destruct (is_loop lp); eauto.
  - intros fuel Hfuel. destruct Hloop as [res Hres]. rewrite Hres.
    by apply (loop_outer_more_fuel m (length (split_lines input))).
  - intros fuel lines acc. apply loop_outer_enough_fuel.
  - intros line rest acc lines' acc' H. apply run_patterns_shrinks in H.
    simpl. lia.
Qed.

Lemma runRegExp_match_not_null re line p m :
  is_Some (String_match line re) -> runRegExp re line p m <> Ok None.
Proof.
  intros [s Hs]. unfold runRegExp. rewrite Hs.
  by destruct (runRegExp_fields s (fields p) ∅).
Qed.

Lemma singleMatch_lines_filter re p m lines acc :
  singleMatch_lines re p m lines acc
  = singleMatch_lines re p m
      (filter (fun l => is_Some (String_match l re)) lines) acc.
Proof.
  revert acc. induction lines as [|l lines IH]; intros acc; [done|].
  rewrite filter_cons. destruct (decide (is_Some (String_match l re))) as [Hl|Hl].
  - simpl. destruct (runRegExp re l p m) as [[r|]|]; simpl; auto.
  - simpl. rewrite runRegExp_no_match; [apply IH|].
    by destruct (String_match l re); [destruct Hl|].
Qed.

Lemma singleMatch_lines_projections re p m ls new acc :
  Forall2 (fun l rec => runRegExp re l p m = Ok (Some rec)) ls new ->
  singleMatch_lines re p m ls acc = Ok (acc ++ new).
Proof.
  intros H. revert acc. induction H as [|l rec ls new Hl _ IH]; intros acc; simpl.
  - by rewrite app_nil_r.
  - rewrite Hl. simpl. rewrite IH. by rewrite <- app_assoc.
Qed.

Lemma singleMatch_lines_inv re p m ls acc out :
  Forall (fun l => is_Some (String_match l re)) ls ->
  singleMatch_lines re p m ls acc = Ok out ->
  exists new,
    out = acc ++ new
    /\ Forall2 (fun l rec => runRegExp re l p m = Ok (Some rec)) ls new.
Proof.
  intros Hall. revert acc. induction Hall as [|l ls Hl _ IH]; intros acc H; simpl in H.
  - injection H as <-. exists []. by rewrite app_nil_r.
  - pose proof (runRegExp_match_not_null re l p m Hl) as Hnn.
    destruct (runRegExp re l p m) as [[r|]|] eqn:Hr; simpl in H; [|done|done].
    destruct (IH _ H) as (new & -> & Hnew). exists (r :: new).
    rewrite <- app_assoc. split; [done|]. by constructor.
Qed.

Lemma singleMatch_lines_throw re p m ls acc msg :
  singleMatch_lines re p m ls acc = Throw msg ->
  exists l, In l ls /\ runRegExp re l p m = Throw msg.
Proof.
  revert acc. induction ls as [|l ls IH]; intros acc H; simpl in H; [done|].
  destruct (runRegExp re l p m) as [[r|]|] eqn:Hr; simpl in H.
  - destruct (IH _ H) as (l' & ? & ?). exists l'. split; [by right|done].
  - destruct (IH _ H) as (l' & ? & ?). exists l'. split; [by right|done].
  - injection H as <-. exists l. split; [by left|done].
Qed.

Lemma match_single m p input :
  pattern m = [p] ->
  match_ m input
  = Some (singleMatch_lines (RegExp_new (regexp p)) p m (split_lines input) []).
Proof. intros Hp. unfold match_, validateMatcher, singleMatch. by rewrite Hp. Qed.

(** C5.  With exactly one pattern, the output is the list, in line order,
    of the projections of the lines that the regular expression matches.
    A line that does not match is projected to [null], never to an error,
    and contributes nothing; an error can only come from the projection of
    a matching line; with no matching line the output is empty. *)
Theorem singleMatch_projects_matching_lines (m : Matcher) (p : Pattern)
    (input : string) :
  pattern m = [p] ->
  let re := RegExp_new (regexp p) in
  let matching :=
    filter (fun l => is_Some (String_match l re)) (split_lines input) in
  (forall l, String_match l re = None -> runRegExp re l p m = Ok None)
  /\ (forall out,
        match_ m input = Some (Ok out)
        <-> Forall2 (fun l rec => runRegExp re l p m = Ok (Some rec)) matching out)
  /\ (forall msg,
        match_ m input = Some (Throw msg) ->
        exists l, In l matching /\ runRegExp re l p m = Throw msg)
  /\ (matching = [] -> match_ m input = Some (Ok [])).
Proof.
  intros Hp re matching.
  assert (Hm : match_ m input = Some (singleMatch_lines re p m matching [])).
  { rewrite (match_single m p input Hp). f_equal. apply singleMatch_lines_filter. }
  assert (Hall : Forall (fun l => is_Some (String_match l re)) matching).
  { apply Forall_forall. intros l Hl. by apply list_elem_of_filter in Hl as [? _]. }
  split; [intros l; apply runRegExp_no_match|]. split; [|split].
  - intros out. rewrite Hm. split.
    + intros [= H]. by apply singleMatch_lines_inv in H as (new & -> & ?).
    + intros H. f_equal. by apply (singleMatch_lines_projections re p m matching out []).
  - intros msg. rewrite Hm. intros [= H]. by apply singleMatch_lines_throw in H.
  - intros Hnil. rewrite Hm, Hnil. done.
Qed.

Lemma fold_spread_matched (rs : list (option MatchResult)) (context : MatchResult) :
  fold_left spread rs context
  = fold_left (fun c r => r ∪ c) (omap id rs) context.
Proof.
  revert context. induction rs as [|[r|] rs IH]; intros context; simpl; auto.
Qed.

(** C8.  An outer iteration takes one line for the context, however many
    non-loop patterns there are: they are all run against that line, and
    the context of the iteration is the overlay, in order, of the
    projections of those that matched (one that does not match adds
    nothing).  The queue reaches the loop pattern as the iteration found
    it, and every record of the iteration carries that context. *)
Theorem context_pass_same_line (m : Matcher) (ctxs : list Pattern) (lp : Pattern)
    (rs : list (option MatchResult)) (line : string) (r0 : option MatchResult)
    (consumed : list string) (acc : list MatchResult) :
  Forall (fun x => is_loop x = false) ctxs ->
  Forall2 (fun x r => runRegExp (RegExp_new (regexp x)) line x m = Ok r) ctxs rs ->
  is_loop lp = true ->
  runRegExp (RegExp_new (regexp lp)) line lp m = Ok r0 ->
  Forall (consumable (RegExp_new (regexp lp)) lp m) consumed ->
  let re := RegExp_new (regexp lp) in
  let context := fold_left (fun c r => r ∪ c) (omap id rs) ∅ in
  let records := phase_records re lp m context consumed in
  run_patterns m (ctxs ++ [lp]) ∅ (Some line) consumed acc
  = Ok ([], acc ++ records)
  /\ (forall l rest, l <> "" -> runRegExp re l lp m = Ok None ->
        run_patterns m (ctxs ++ [lp]) ∅ (Some line) (consumed ++ l :: rest) acc
        = Ok (l :: rest, acc ++ records))
  /\ (forall fuel, pattern m = ctxs ++ [lp] ->
        loop_outer (S fuel) m (line :: consumed) acc = Some (Ok (acc ++ records)))
  /\ (forall ps context0 lines0 acc0,
        run_patterns m (ctxs ++ ps) context0 (Some line) lines0 acc0
        = run_patterns m ps (fold_left (fun c r => r ∪ c) (omap id rs) context0)
            (Some line) lines0 acc0).
Proof.
  intros Hctx Hrs Hlp Hr0 Hcons re context records.
  assert (Hrun : forall ps context0 lines0 acc0,
    run_patterns m (ctxs ++ ps) context0 (Some line) lines0 acc0
    = run_patterns m ps (fold_left (fun c r => r ∪ c) (omap id rs) context0)
        (Some line) lines0 acc0).
  { intros ps context0 lines0 acc0. rewrite <- fold_spread_matched.
    revert context0. clear context records.
    induction Hrs as [|x r ctxs rs Hr _ IH]; intros context0; [done|].
    apply Forall_cons in Hctx as [Hx Hctx]. simpl. rewrite Hr, Hx. simpl.
    by apply IH. }
  assert (Hlast : forall lines0,
    run_patterns m (ctxs ++ [lp]) ∅ (Some line) lines0 acc
    = ('(_, lines', acc') ← loop_phase re lp m context lines0 acc;
       Ok (lines', acc'))).
  { intros lines0. rewrite Hrun. simpl. rewrite Hr0. simpl.
    rewrite Hlp. simpl. fold re context.
    by destruct (loop_phase re lp m context lines0 acc) as [[[l1 lines1] acc1]|]. }
  assert (Hdry : run_patterns m (ctxs ++ [lp]) ∅ (Some line) consumed acc
                 = Ok ([], acc ++ records)).
  { rewrite Hlast. by rewrite loop_phase_exhausted. }
  split; [exact Hdry|]. split; [|split; [|exact Hrun]].
  - intros l rest Hl Hr. rewrite Hlast.
    rewrite loop_phase_consume by done. by rewrite loop_phase_stop.
  - intros fuel Hp. simpl. rewrite Hp, Hdry. by destruct fuel.
Qed.

(** An outer iteration of a matcher whose patterns are non-loop patterns
    followed by one loop pattern: context pass, the loop pattern tried on
    the context line (result dropped), loop phase. *)
Lemma run_patterns_loop_mode m ctxs lp cl rest acc :
  pattern m = ctxs ++ [lp] ->
  Forall (fun x => is_loop x = false) ctxs ->
  is_loop lp = true ->
  run_patterns m (pattern m) ∅ (Some cl) rest acc
  = (context ← context_fields m ctxs cl ∅;
     _ ← runRegExp (RegExp_new (regexp lp)) cl lp m;
     '(_, lines', acc') ← loop_phase (RegExp_new (regexp lp)) lp m context rest acc;
     Ok (lines', acc')).
Proof.
  intros Hp Hctx Hlp. rewrite Hp, run_patterns_context by done.
  destruct (context_fields m ctxs cl ∅) as [context|]; simpl; [|done].
  destruct (runRegExp (RegExp_new (regexp lp)) cl lp m) as [r0|]; simpl; [|done].
  rewrite Hlp. simpl.
  by destruct (loop_phase _ lp m context rest acc) as [[[l1 lines1] acc1]|].
Qed.

(** C4.  In a matcher whose last pattern is the loop pattern and whose
    other patterns are not loop patterns ([loop] is only valid on the last
    pattern), the loop phase takes lines from the front of the queue until
    the queue is empty or a non-blank line does not match the loop pattern.
    Blank lines are skipped: they add no record and do not end the phase.
    The first non-blank line that does not match is put back at the front
    of the queue, and the next outer iteration takes it as its context
    line. *)
Theorem loop_phase_consumes_until_mismatch (m : Matcher) (ctxs : list Pattern)
    (lp : Pattern) (context : MatchResult) (consumed : list string)
    (acc : list MatchResult) :
  pattern m = ctxs ++ [lp] ->
  Forall (fun x => is_loop x = false) ctxs ->
  is_loop lp = true ->
  Forall (consumable (RegExp_new (regexp lp)) lp m) consumed ->
  let re := RegExp_new (regexp lp) in
  let records := phase_records re lp m context consumed in
  (forall lines acc0 line' lines' acc',
     loop_phase re lp m context lines acc0 = Ok (line', lines', acc') ->
     exists pre,
       lines = pre ++ lines'
       /\ Forall (consumable re lp m) pre
       /\ acc' = acc0 ++ phase_records re lp m context pre
       /\ ((line' = None /\ lines' = [])
           \/ exists l tail, line' = Some l /\ lines' = l :: tail /\ l <> ""
                             /\ runRegExp re l lp m = Ok None))
  /\ (forall lines acc0,
        loop_phase re lp m context ("" :: lines) acc0
        = loop_phase re lp m context lines acc0)
  /\ loop_phase re lp m context consumed acc = Ok (None, [], acc ++ records)
  /\ (forall l rest, l <> "" -> runRegExp re l lp m = Ok None ->
        loop_phase re lp m context (consumed ++ l :: rest) acc
        = Ok (Some l, l :: rest, acc ++ records)
        /\ forall fuel cl r0,
             context_fields m ctxs cl ∅ = Ok context ->
             runRegExp re cl lp m = Ok r0 ->
             loop_outer (S (S fuel)) m (cl :: consumed ++ l :: rest) acc
             = match run_patterns m (pattern m) ∅ (Some l) rest (acc ++ records) with
               | Ok (lines', acc') => loop_outer fuel m lines' acc'
               | Throw msg => Some (Throw msg)
               end).
Proof.
  intros Hp Hctx Hlp Hcons re records.
  split; [intros lines acc0 line' lines' acc'; apply loop_phase_inv|].
  split; [done|]. split; [by apply loop_phase_exhausted|].
  intros l rest Hl Hr.
  assert (Hphase : loop_phase re lp m context (consumed ++ l :: rest) acc
                   = Ok (Some l, l :: rest, acc ++ records)).
  { rewrite loop_phase_consume by done. by apply loop_phase_stop. }
  split; [done|]. intros fuel cl r0 Hcl Hr0.
  change (loop_outer (S (S fuel)) m (cl :: consumed ++ l :: rest) acc)
    with (match run_patterns m (pattern m) ∅ (Some cl) (consumed ++ l :: rest) acc with
          | Ok (lines', acc') => loop_outer (S fuel) m lines' acc'
          | Throw msg => Some (Throw msg)
          end).
  rewrite (run_patterns_loop_mode m ctxs lp) by done.
  rewrite Hcl. simpl. fold re. rewrite Hr0. simpl. rewrite Hphase. done.
Qed.

(** C3, as the code has it.  In a matcher whose last pattern is the loop
    pattern and whose other patterns are not loop patterns: in an outer
    iteration, each line that the loop phase takes from the queue is blank
    or matches the loop pattern, and
    each non-blank one appends exactly one record, in queue order: its
    projection overlaid onto the context of the iteration, the projection
    winning on common keys.  (The loop pattern is also tried on the context
    line itself; that match appends nothing.)  Over the whole run the
    records come from distinct lines of the input, in input order. *)
Theorem loop_records (m : Matcher) (ctxs : list Pattern) (lp : Pattern) :
  pattern m = ctxs ++ [lp] ->
  Forall (fun x => is_loop x = false) ctxs ->
  is_loop lp = true ->
  let re := RegExp_new (regexp lp) in
  (forall cl rest acc lines' acc',
     run_patterns m (pattern m) ∅ (Some cl) rest acc = Ok (lines', acc') ->
     exists context consumed,
       context_fields m ctxs cl ∅ = Ok context
       /\ rest = consumed ++ lines'
       /\ Forall (consumable re lp m) consumed
       /\ acc' = acc ++ omap (phase_record re lp m context) consumed
       /\ (forall l r, l <> "" -> runRegExp re l lp m = Ok (Some r) ->
             phase_record re lp m context l = Some (r ∪ context)
             /\ forall k : string,
                  (r ∪ context) !! k
                  = match r !! k with Some v => Some v | None => context !! k end))
  /\ (forall input out,
        loopMatch m input = Some (Ok out) ->
        attributed (emitted_by m lp) (split_lines input) out).
Proof.
  intros Hp Hctx Hlp re. split.
  - intros cl rest acc lines' acc' H.
    rewrite (run_patterns_loop_mode m ctxs lp) in H by done.
    destruct (context_fields m ctxs cl ∅) as [context|]; simpl in H; [|done].
    destruct (runRegExp (RegExp_new (regexp lp)) cl lp m) as [r0|]; simpl in H; [|done].
    destruct (loop_phase _ lp m context rest acc) as [[[l1 lines1] acc1]|] eqn:Hph;
      simpl in H; [|done].
    injection H as <- <-.
    apply loop_phase_inv in Hph as (pre & -> & Hpre & -> & _).
    exists context, pre. do 4 (split; [done|]). intros l r Hl Hr. split.
    + unfold phase_record. apply String.eqb_neq in Hl. by rewrite Hl, Hr.
    + intros k. rewrite lookup_union. by destruct (r !! k), (context !! k).
  - intros input out H. unfold loopMatch in H.
    apply loop_outer_attributed in H as (new & -> & Hat). simpl.
    eapply attributed_impl; [|exact Hat].
    intros l rec (x & Hx & Hem). rewrite Hp in Hx.
    apply in_app_or in Hx as [Hx|[<-|[]]]; [|done].
    destruct Hem as (_ & Hloop & _).
    rewrite Forall_forall in Hctx. apply list_elem_of_In in Hx.
    by rewrite (Hctx _ Hx) in Hloop.
Qed.

End Specification.

(** ** The validator does not look at [owner] *)

Section Owner.

Context `{E : RegExpEngine}.

Lemma runRegExp_owner o re line p m :
  runRegExp re line p (with_owner o m) = runRegExp re line p m.
Proof. done. Qed.

Lemma singleMatch_lines_owner o re p m ls acc :
  singleMatch_lines re p (with_owner o m) ls acc = singleMatch_lines re p m ls acc.
Proof.
  revert acc. induction ls as [|l ls IH]; intros acc; simpl; [done|].
  rewrite runRegExp_owner. destruct (runRegExp re l p m) as [[r|]|]; simpl; auto.
Qed.

Lemma loop_phase_owner o re x m ctx ls acc :
  loop_phase re x (with_owner o m) ctx ls acc = loop_phase re x m ctx ls acc.
Proof.
  revert acc. induction ls as [|l ls IH]; intros acc; simpl; [done|].
  destruct (String.eqb l ""); [apply IH|]. rewrite runRegExp_owner.
  destruct (runRegExp re l x m) as [[r|]|]; simpl; auto.
Qed.

Lemma run_patterns_owner o m ps ctx line ls acc :
  run_patterns (with_owner o m) ps ctx line ls acc = run_patterns m ps ctx line ls acc.
Proof.
  revert ctx line ls acc. induction ps as [|x ps IH]; intros ctx line ls acc; simpl; [done|].
  destruct line as [l|]; simpl; [|done]. rewrite runRegExp_owner.
  destruct (runRegExp _ l x m) as [r|]; simpl; [|done].
  destruct (is_loop x); simpl; [|apply IH].
  rewrite loop_phase_owner.
  destruct (loop_phase _ x m ctx ls acc) as [[[l1 ls1] acc1]|]; simpl; auto.
Qed.

Lemma loop_outer_owner o fuel m ls acc :
  loop_outer fuel (with_owner o m) ls acc = loop_outer fuel m ls acc.
Proof.
  revert ls acc. induction fuel as [|fuel IH]; intros ls acc; [done|].
  destruct ls as [|l ls]; simpl; [done|]. rewrite run_patterns_owner.
  destruct (run_patterns m (pattern m) ∅ (Some l) ls acc) as [[ls1 acc1]|]; auto.
Qed.

Lemma match_owner o m input : match_ (with_owner o m) input = match_ m input.
Proof.
  unfold match_, validateMatcher, singleMatch, loopMatch. simpl.
  destruct (length (pattern m) <? 1)%nat; [done|].
  destruct (length (pattern m) =? 1)%nat.
  - destruct (pattern m); [done|]. by rewrite singleMatch_lines_owner.
  - destruct (last (pattern m)) as [lp|]; [|done].
    destruct (is_loop lp); [|done]. apply loop_outer_owner.
Qed.

End Owner.

(** ** The properties on concrete matchers and inputs *)

(** C2.  The code does not check [matcher.owner]: a matcher with an empty
    or an absent owner is run like any other, here to one record, where
    the owner error is expected. *)
Theorem owner_not_validated :
  match_ ownerless_matcher line_colon = Some (Ok [colon_record])
  /\ match_ (with_owner None validMatcher) line_colon = Some (Ok [colon_record])
  /\ match_ ownerless_matcher line_colon <> Some (Throw no_owner_msg).
Proof.
  assert (H : match_ ownerless_matcher line_colon = Some (Ok [colon_record]))
    by (vm_compute; reflexivity).
  split; [done|]. split; [by rewrite match_owner|]. by rewrite H.
Qed.

(** C1 does not hold on a line that the regular expression does not
    match: the projector returns [null] and the engine an empty list.  On
    a matching line, a field enumerated before the zero-mapped one can
    raise its own error first. *)
Lemma group0_unmatched_line_returns_null :
  In ("message", 0) (fields group0_pattern)
  /\ runRegExp (RegExp_new (regexp group0_pattern)) "no match here"
       group0_pattern group0_matcher = Ok None
  /\ match_ group0_matcher "no match here" = Some (Ok [])
  /\ In ("message", 0) (fields code4_group0_pattern)
  /\ runRegExp (RegExp_new (regexp code4_group0_pattern)) line_colon
       code4_group0_pattern group0_matcher
     = Throw "Invalid capture group provided. Group 4 (code) does not exist in regexp".
Proof.
  split; [by left|]. split; [reflexivity|]. split; [reflexivity|].
  split; [right; by left|reflexivity].
Qed.

Lemma runRegExp_group0_witness :
  fields group0_pattern = [] ++ ("message", 0) :: []
  /\ is_reserved "message" = false
  /\ runRegExp (RegExp_new re_colon) line_colon group0_pattern group0_matcher
     = Throw group0_msg.
Proof.
  split; [reflexivity|]. split; [reflexivity|].
  refine (proj2 (proj2 (runRegExp_group0 (RegExp_new re_colon) line_colon
    group0_pattern group0_matcher [] [] "message" eq_refl eq_refl) _ _) _);
    reflexivity.
Defined.

(** C10 does not hold when a field enumerated before the empty capture is
    mapped to group 0: the error is the group-0 error, which is not an
    invalid-capture-group error. *)
Lemma empty_capture_after_group0 :
  String_match "b" (RegExp_new (regexp optional_group0_pattern))
    = Some [Some "b"; Some ""; None]
  /\ In ("message", 1) (fields optional_group0_pattern)
  /\ runRegExp (RegExp_new (regexp optional_group0_pattern)) "b"
       optional_group0_pattern optional_matcher = Throw group0_msg
  /\ forall g k, group0_msg <> invalid_group_msg g k.
Proof.
  split; [reflexivity|]. split; [right; by left|]. split; [reflexivity|].
  intros g k. discriminate.
Qed.

Lemma runRegExp_empty_capture_witness :
  String_match "b" (RegExp_new re_optional) = Some [Some "b"; Some ""; None]
  /\ fields optional_pattern = [] ++ ("message", 1) :: []
  /\ is_reserved "message" = false
  /\ 0 < 1 /\ (Z.to_nat 1 < length [Some "b"; Some ""; @None string])%nat
  /\ truthy (group [Some "b"; Some ""; None] 1) = false
  /\ runRegExp (RegExp_new re_optional) "b" optional_pattern optional_matcher
     = Throw (invalid_group_msg 1 "message").
Proof.
  assert (Hlen : (Z.to_nat 1 < length [Some "b"; Some ""; @None string])%nat)
    by (simpl; lia).
  repeat (split; [first [reflexivity | exact Hlen]|]).
  refine (proj1 (proj2 (runRegExp_empty_capture (RegExp_new re_optional) "b"
    optional_pattern optional_matcher [Some "b"; Some ""; None] [] []
    "message" 1 eq_refl eq_refl eq_refl eq_refl Hlen eq_refl)) _).
  reflexivity.
Defined.

(** A loop matcher whose context pattern captures a [severity] and whose
    loop pattern does not, and what an ECMAScript engine answers on the
    pairs its run on [header_report] evaluates. *)
Definition re_header : string := "^(\w+): (.*)$".
Definition re_position : string := "^\s+(\d+):(\d+)$".

Definition header_engine : RegExpEngine := {|
  RegExp := string;
  RegExp_new := fun source => source;
  String_match := fun line re =>
    sample_lookup
      [ (re_header, "warning: lib.js",
          Some [Some "warning: lib.js"; Some "warning"; Some "lib.js"]);
        (re_position, "warning: lib.js", None);
        (re_position, "  3:7", Some [Some "  3:7"; Some "3"; Some "7"]) ] re line
|}.

Definition header_pattern : Pattern :=
  {| regexp := re_header; loop := None; fields := [("severity", 1); ("file", 2)] |}.

Definition position_pattern : Pattern :=
  {| regexp := re_position; loop := Some true;
     fields := [("line", 1); ("column", 2)] |}.

Definition header_matcher : Matcher :=
  {| owner := Some "header"; severity := None;
     pattern := [header_pattern; position_pattern] |}.

Definition header_report : string :=
  String.concat (String newline "") ["warning: lib.js"; "  3:7"].

Definition position_record : MatchResult :=
  {[ "file" := Some "lib.js"; "line" := Some "3"; "column" := Some "7";
     "severity" := None ]}.

(** The context holds the severity "warning"; the record does not. *)
Lemma severity_fallback_witness :
  match_ (E := header_engine) header_matcher header_report
    = Some (Ok [position_record])
  /\ In position_record [position_record]
  /\ context_fields (E := header_engine) header_matcher [header_pattern]
       "warning: lib.js" ∅
     = Ok {[ "severity" := Some "warning"; "file" := Some "lib.js" ]}
  /\ position_record !! "severity" = Some (severity header_matcher)
  /\ prop position_record "severity" = severity header_matcher.
Proof.
  assert (H : match_ (E := header_engine) header_matcher header_report
              = Some (Ok [position_record]))
    by (vm_compute; reflexivity).
  split; [exact H|]. split; [by left|]. split; [vm_compute; reflexivity|].
  refine (proj1 (proj2 (severity_fallback (E := header_engine) header_matcher
    header_report [position_record] position_record H (or_introl eq_refl))) _).
  intros x [<-|[<-|[]]] [Hlen|Hloop].
  - discriminate Hlen.
  - discriminate Hloop.
  - discriminate Hlen.
  - simpl. intros [H1|[H1|[]]]; discriminate H1.
Defined.

Lemma unsupported_configuration_witness :
  (1 < length (pattern multipleNoLoopMatcher))%nat
  /\ is_loop {| regexp := "^([^;]+)"; loop := None; fields := [("message", 1)] |}
     = false
  /\ match_ multipleNoLoopMatcher "Test" = Some (Throw unsupported_msg).
Proof.
  assert (Hlen : (1 < length (pattern multipleNoLoopMatcher))%nat) by (simpl; lia).
  split; [exact Hlen|]. split; [reflexivity|].
  exact (unsupported_configuration multipleNoLoopMatcher "Test" _
           Hlen eq_refl eq_refl).
Defined.

Lemma singleMatch_projects_matching_lines_witness :
  pattern validMatcher = [colon_pattern]
  /\ match_ validMatcher line_colon = Some (Ok [colon_record])
  /\ match_ validMatcher "no match here" = Some (Ok []).
Proof.
  split; [reflexivity|]. split.
  - apply (proj1 (proj2 (singleMatch_projects_matching_lines validMatcher
      colon_pattern line_colon eq_refl))).
    vm_compute. constructor; [reflexivity|constructor].
  - apply (proj2 (proj2 (proj2 (singleMatch_projects_matching_lines validMatcher
      colon_pattern "no match here" eq_refl)))).
    reflexivity.
Defined.

(** In the loop-mode sample a second context pattern, which does not match
    the context line, is run on that same line and adds nothing; the
    record carries the file of the first. *)
Lemma context_pass_same_line_witness :
  Forall (fun x => is_loop x = false) [file_pattern; colon_pattern]
  /\ Forall2 (fun x r => runRegExp (RegExp_new (regexp x)) "foo.js" x
                           eslintLoopMatcher = Ok r)
       [file_pattern; colon_pattern] [Some foo_context; None]
  /\ is_loop entry_pattern = true
  /\ runRegExp (RegExp_new (regexp entry_pattern)) "foo.js" entry_pattern
       eslintLoopMatcher = Ok None
  /\ Forall (consumable (RegExp_new (regexp entry_pattern)) entry_pattern
               eslintLoopMatcher) [line_entry1]
  /\ run_patterns eslintLoopMatcher ([file_pattern; colon_pattern] ++ [entry_pattern])
       ∅ (Some "foo.js") [line_entry1] []
     = Ok ([], [entry_record "foo.js" "1" "0" "error" "bad" "strict"]).
Proof.
  assert (H1 : Forall (fun x => is_loop x = false) [file_pattern; colon_pattern])
    by (repeat constructor).
  assert (H2 : Forall2 (fun x r => runRegExp (RegExp_new (regexp x)) "foo.js" x
                           eslintLoopMatcher = Ok r)
       [file_pattern; colon_pattern] [Some foo_context; None]).
  { constructor; [vm_compute; reflexivity|].
    constructor; [vm_compute; reflexivity|constructor]. }
  assert (H5 : Forall (consumable (RegExp_new (regexp entry_pattern)) entry_pattern
               eslintLoopMatcher) [line_entry1]).
  { constructor; [right; eexists; vm_compute; reflexivity|constructor]. }
  split; [exact H1|]. split; [exact H2|]. split; [reflexivity|].
  split; [reflexivity|]. split; [exact H5|].
  rewrite (proj1 (context_pass_same_line eslintLoopMatcher
    [file_pattern; colon_pattern] entry_pattern [Some foo_context; None]
    "foo.js" None [line_entry1] [] H1 H2 eq_refl eq_refl H5)).
  vm_compute. reflexivity.
Defined.

Lemma loop_phase_consumes_until_mismatch_witness :
  pattern eslintLoopMatcher = [file_pattern] ++ [entry_pattern]
  /\ Forall (fun x => is_loop x = false) [file_pattern]
  /\ is_loop entry_pattern = true
  /\ Forall (consumable (RegExp_new (regexp entry_pattern)) entry_pattern
               eslintLoopMatcher) [line_entry1; ""; line_entry2]
  /\ loop_phase (RegExp_new (regexp entry_pattern)) entry_pattern eslintLoopMatcher
       foo_context ([line_entry1; ""; line_entry2] ++ "bar.js" :: [line_entry3]) []
     = Ok (Some "bar.js", "bar.js" :: [line_entry3],
           [] ++ phase_records (RegExp_new (regexp entry_pattern)) entry_pattern
                   eslintLoopMatcher foo_context [line_entry1; ""; line_entry2]).
Proof.
  assert (H2 : Forall (fun x => is_loop x = false) [file_pattern])
    by (repeat constructor).
  assert (H4 : Forall (consumable (RegExp_new (regexp entry_pattern)) entry_pattern
               eslintLoopMatcher) [line_entry1; ""; line_entry2]).
  { constructor; [right; eexists; vm_compute; reflexivity|].
    constructor; [left; reflexivity|].
    constructor; [right; eexists; vm_compute; reflexivity|constructor]. }
  split; [reflexivity|]. split; [exact H2|]. split; [reflexivity|].
  split; [exact H4|].
  refine (proj1 (proj2 (proj2 (proj2 (loop_phase_consumes_until_mismatch
    eslintLoopMatcher [file_pattern] entry_pattern foo_context
    [line_entry1; ""; line_entry2] [] eq_refl H2 eq_refl H4)))
    "bar.js" [line_entry3] _ _)).
  - discriminate.
  - reflexivity.
Defined.

(** C3 does not hold for the context line: the first line of this input
    matches the loop pattern, the outer iteration takes it as its context
    line, the match is dropped and the output is empty. *)
Lemma loop_match_on_context_line_dropped :
  is_loop entry_pattern = true
  /\ (exists r, runRegExp (RegExp_new (regexp entry_pattern)) line_entry1
                  entry_pattern eslintLoopMatcher = Ok (Some r))
  /\ match_ eslintLoopMatcher line_entry1 = Some (Ok []).
Proof.
  split; [reflexivity|]. split; [eexists; vm_compute; reflexivity|].
  reflexivity.
Qed.

Lemma loop_records_witness :
  pattern eslintLoopMatcher = [file_pattern] ++ [entry_pattern]
  /\ Forall (fun x => is_loop x = false) [file_pattern]
  /\ is_loop entry_pattern = true
  /\ loopMatch eslintLoopMatcher sample_report = Some (Ok sample_records)
  /\ attributed (emitted_by eslintLoopMatcher entry_pattern)
       (split_lines sample_report) sample_records.
Proof.
  assert (H2 : Forall (fun x => is_loop x = false) [file_pattern])
    by (repeat constructor).
  assert (H : loopMatch eslintLoopMatcher sample_report = Some (Ok sample_records))
    by (vm_compute; reflexivity).
  split; [reflexivity|]. split; [exact H2|]. split; [reflexivity|].
  split; [exact H|].
  exact (proj2 (loop_records eslintLoopMatcher [file_pattern] entry_pattern
           eq_refl H2 eq_refl) sample_report sample_records H).
Defined.

(** * Further properties of the engine *)

(** ** Vocabulary *)

(** [runRegExp] of the typed revision of [mod.ts]: the same steps around
    the loop over [Object.keys(pattern)]. *)
Definition runRegExp_typed `{E : RegExpEngine} (re : RegExp) (line : string)
    (p : Pattern) (m : Matcher) : result (option MatchResult) :=
  match String_match line re with
  | None => Ok None
  | Some s =>
      matches ← runRegExp_keys s (fields p) ∅;
      let matches :=
        if negb (truthy (prop matches "severity"))
        then <["severity" := severity m]> matches
        else matches in
      Ok (Some matches)
  end.

(** The errors that projecting with pattern [p] can throw. *)
Definition projector_error (p : Pattern) (msg : string) : Prop :=
  (msg = group0_msg /\ exists k, In (k, 0) (fields p) /\ is_reserved k = false)
  \/ (exists k g, In (k, g) (fields p) /\ is_reserved k = false /\ g <> 0
                  /\ msg = invalid_group_msg g k).

(** A pattern with [loop] set that is followed by another pattern. *)
Definition loop_before_last (ps : list Pattern) : Prop :=
  exists pre x post, ps = pre ++ x :: post /\ is_loop x = true /\ post <> [].

(** ** Which errors the engine throws *)

Section Errors.

Context `{E : RegExpEngine}.

Lemma runRegExp_fields_throw s fs acc msg :
  runRegExp_fields s fs acc = Throw msg ->
  (msg = group0_msg /\ exists k, In (k, 0) fs /\ is_reserved k = false)
  \/ (exists k g, In (k, g) fs /\ is_reserved k = false /\ g <> 0
                  /\ msg = invalid_group_msg g k).
Proof.
  revert acc. induction fs as [|[k v] fs IH]; intros acc H; simpl in H; [done|].
  assert (Htail : forall acc', runRegExp_fields s fs acc' = Throw msg ->
    (msg = group0_msg /\ exists k0, In (k0, 0) ((k, v) :: fs) /\ is_reserved k0 = false)
    \/ (exists k0 g, In (k0, g) ((k, v) :: fs) /\ is_reserved k0 = false /\ g <> 0
                     /\ msg = invalid_group_msg g k0)).
  { intros acc' H'. destruct (IH _ H') as [[-> (k0 & Hin & Hk0)]|(k0 & g & Hin & Hk0 & Hg & ->)].
    - left. split; [done|]. exists k0. split; [by right|done].
    - right. exists k0, g. split; [by right|done]. }
  destruct (is_reserved k) eqn:Hk; [by eapply Htail|].
  destruct (Z.eqb_spec v 0) as [->|Hv].
  { injection H as <-. left. split; [done|]. exists k. split; [by left|done]. }
  destruct (group s v) as [[|c t]|]; try by eapply Htail.
  - injection H as <-. right. exists k, v. split; [by left|done].
  - injection H as <-. right. exists k, v. split; [by left|done].
Qed.

Lemma runRegExp_throw_kind re line p m msg :
  runRegExp re line p m = Throw msg -> projector_error p msg.
Proof.
  unfold runRegExp. destruct (String_match line re) as [s|]; [|done].
  destruct (runRegExp_fields s (fields p) ∅) as [r|] eqn:Hf; simpl; [done|].
  intros [= <-]. by apply runRegExp_fields_throw in Hf.
Qed.

Lemma loop_phase_throw re x m ctx lines acc msg :
  loop_phase re x m ctx lines acc = Throw msg ->
  exists l, In l lines /\ l <> "" /\ runRegExp re l x m = Throw msg.
Proof.
  revert acc. induction lines as [|l lines IH]; intros acc H; simpl in H; [done|].
  destruct (String.eqb l "") eqn:Hb.
  { destruct (IH _ H) as (l' & ? & ? & ?). exists l'. split; [by right|done]. }
  destruct (runRegExp re l x m) as [[r|]|] eqn:Hr; simpl in H.
  - destruct (IH _ H) as (l' & ? & ? & ?). exists l'. split; [by right|done].
  - done.
  - injection H as <-. exists l. split; [by left|]. split; [|done].
    by apply String.eqb_neq.
Qed.

Lemma loop_before_last_cons x ps : loop_before_last ps -> loop_before_last (x :: ps).
Proof.
  intros (pre & y & post & -> & Hy & Hpost). by exists (x :: pre), y, post.
Qed.

Lemma run_patterns_throw m ps ctx line lines acc msg :
  run_patterns m ps ctx line lines acc = Throw msg ->
  (exists x, In x ps /\ projector_error x msg)
  \/ (msg = undefined_read_msg "match"
      /\ ((line = None /\ ps <> []) \/ loop_before_last ps)).
Proof.
  revert ctx line lines acc.
  induction ps as [|x ps IH]; intros ctx line lines acc H; simpl in H; [done|].
  destruct line as [l|]; simpl in H.
  2:{ injection H as <-. right. split; [done|]. by left. }
  assert (Htail : forall ctx' line' lines' acc',
    (line' = None -> is_loop x = true) ->
    run_patterns m ps ctx' line' lines' acc' = Throw msg ->
    (exists x0, In x0 (x :: ps) /\ projector_error x0 msg)
    \/ (msg = undefined_read_msg "match"
        /\ ((Some l = None /\ x :: ps <> []) \/ loop_before_last (x :: ps)))).
  { intros ctx' line' lines' acc' Hnone H'.
    destruct (IH _ _ _ _ H') as [(x0 & Hin & Hx0)|[-> [[-> Hps]|Hlb]]].
    - left. exists x0. split; [by right|done].
    - right. split; [done|]. right. exists [], x, ps. by rewrite Hnone.
    - right. split; [done|]. right. by apply loop_before_last_cons. }
  destruct (runRegExp (RegExp_new (regexp x)) l x m) as [r|] eqn:Hr; simpl in H.
  2:{ injection H as <-. left. exists x. split; [by left|].
      by eapply runRegExp_throw_kind. }
  destruct (is_loop x) eqn:Hx; simpl in H.
  - destruct (loop_phase (RegExp_new (regexp x)) x m ctx lines acc)
      as [[[l1 lines1] acc1]|] eqn:Hp; simpl in H.
    + by eapply Htail.
    + injection H as <-. apply loop_phase_throw in Hp as (l' & _ & _ & Hl').
      left. exists x. split; [by left|]. by eapply runRegExp_throw_kind.
  - eapply Htail; [|exact H]. done.
Qed.

Lemma loop_outer_throw fuel m lines acc msg :
  loop_outer fuel m lines acc = Some (Throw msg) ->
  (exists x, In x (pattern m) /\ projector_error x msg)
  \/ (msg = undefined_read_msg "match" /\ loop_before_last (pattern m)).
Proof.
  revert lines acc. induction fuel as [|fuel IH]; intros lines acc H.
  - by destruct lines.
  - destruct lines as [|line rest]; simpl in H; [done|].
    destruct (run_patterns m (pattern m) ∅ (Some line) rest acc)
      as [[lines' acc']|] eqn:Hr; [by eapply IH|].
    injection H as <-.
    destruct (run_patterns_throw _ _ _ _ _ _ _ Hr) as [?|[-> [[? _]|?]]]; auto.
    done.
Qed.

(** The four ways of the validator and the dispatcher. *)
Lemma match_dispatch (m : Matcher) (input : string) :
  (pattern m = [] /\ match_ m input = Some (Throw pattern_array_msg))
  \/ (exists p, pattern m = [p]
       /\ match_ m input
          = Some (singleMatch_lines (RegExp_new (regexp p)) p m (split_lines input) []))
  \/ (exists lp, (1 < length (pattern m))%nat /\ last (pattern m) = Some lp
        /\ is_loop lp = true /\ match_ m input = loopMatch m input)
  \/ (exists lp, (1 < length (pattern m))%nat /\ last (pattern m) = Some lp
        /\ is_loop lp = false /\ match_ m input = Some (Throw unsupported_msg)).
Proof.
  unfold match_, validateMatcher, singleMatch.
  destruct (pattern m) as [|p [|p' ps]] eqn:Hp.
  - by left.
  - right. left. by exists p.
  - destruct (last (p :: p' :: ps)) as [lp|] eqn:Hlast.
    2:{ by apply last_None in Hlast. }
    assert (Hlen : (1 < length (p :: p' :: ps))%nat) by (simpl; lia).
    replace ((length (p :: p' :: ps) <? 1)%nat) with false by done.
    replace ((length (p :: p' :: ps) =? 1)%nat) with false by done.
    destruct (is_loop lp) eqn:Hlp; right; right; [left|right]; by exists lp.
Qed.

Lemma projector_error_message x msg :
  projector_error x msg ->
  msg <> pattern_array_msg /\ msg <> unsupported_msg
  /\ msg <> undefined_read_msg "match".
Proof. by intros [[-> _]|(k & g & _ & _ & _ & ->)]. Qed.

End Errors.

(** ** What a successful projection holds *)

Section Records.

Context `{E : RegExpEngine}.

Lemma fields_lookup_field s fs acc r k g :
  runRegExp_fields s fs acc = Ok r ->
  NoDup (map fst fs) -> In (k, g) fs -> is_reserved k = false ->
  exists str, group s g = Some str /\ str <> "" /\ g <> 0
              /\ r !! k = Some (Some (trim str)).
Proof.
  revert acc. induction fs as [|[k' v] fs IH]; intros acc H Hnd Hin Hk; [done|].
  simpl in H, Hnd. apply NoDup_cons in Hnd as [Hk' Hnd].
  destruct Hin as [[= -> ->]|Hin].
  - rewrite Hk in H. destruct (Z.eqb_spec g 0) as [|Hg]; [done|].
    destruct (group s g) as [[|c t]|] eqn:Hgr; try done.
    exists (String c t). do 3 (split; [done|]).
    rewrite (fields_lookup_other _ _ _ _ k H).
    + apply lookup_insert_eq.
    + by rewrite <- list_elem_of_In.
  - destruct (is_reserved k'); [by eapply IH|].
    destruct (v =? 0); [done|].
    destruct (group s v) as [[|c t]|]; try done. by eapply IH.
Qed.

Lemma fields_dom s fs acc r (k : string) :
  runRegExp_fields s fs acc = Ok r ->
  is_Some (r !! k)
  <-> is_Some (acc !! k) \/ exists g, In (k, g) fs /\ is_reserved k = false.
Proof.
  revert acc. induction fs as [|[k' v] fs IH]; intros acc H; simpl in H.
  - injection H as <-. split; [by left|]. by intros [?|(g & [] & _)].
  - destruct (is_reserved k') eqn:Hk'.
    { rewrite (IH _ H). split; intros [?|(g & Hin & Hk)]; auto.
      - right. exists g. split; [by right|done].
      - destruct Hin as [[= -> ->]|Hin]; [congruence|]. right. by exists g. }
    destruct (v =? 0); [done|].
    destruct (group s v) as [[|c t]|]; try done.
    rewrite (IH _ H). destruct (decide (k' = k)) as [->|Hne].
    + rewrite lookup_insert_eq. split; intros _.
      * right. exists v. split; [by left|done].
      * left. by eexists.
    + rewrite lookup_insert_ne by done.
      split; intros [?|(g & Hin & Hk)]; auto.
      * right. exists g. split; [by right|done].
      * destruct Hin as [[= -> ->]|Hin]; [done|]. right. by exists g.
Qed.

(** The last step of [runRegExp] touches the [severity] property only. *)
Lemma runRegExp_inv re line p m r :
  runRegExp re line p m = Ok (Some r) ->
  exists s r0,
    String_match line re = Some s
    /\ runRegExp_fields s (fields p) ∅ = Ok r0
    /\ r = (if negb (truthy (prop r0 "severity"))
            then <["severity" := severity m]> r0 else r0).
Proof.
  unfold runRegExp. destruct (String_match line re) as [s|]; [|done].
  destruct (runRegExp_fields s (fields p) ∅) as [r0|] eqn:Hf; simpl; [|done].
  intros [= <-]. by exists s, r0.
Qed.

(** X3.  The record of a successful projection, for a pattern whose keys
    are distinct and ordinary (none is [__proto__], which an assignment
    does not turn into a property): its properties are [severity] and the
    pattern's fields, and every field holds the trimmed text of its capture
    group, which is not empty before trimming.  (For [severity] this needs
    the trimmed text not to be empty.) *)
Theorem runRegExp_record (re : RegExp) (line : string) (p : Pattern)
    (m : Matcher) (s : list (option string)) (r : MatchResult) :
  String_match line re = Some s ->
  runRegExp re line p m = Ok (Some r) ->
  NoDup (map fst (fields p)) ->
  ~ In "__proto__" (map fst (fields p)) ->
  (forall k : string,
     is_Some (r !! k)
     <-> k = "severity" \/ exists g, In (k, g) (fields p) /\ is_reserved k = false)
  /\ (forall k g, In (k, g) (fields p) -> is_reserved k = false ->
        exists str, group s g = Some str /\ str <> "" /\ g <> 0
                    /\ (k <> "severity" \/ trim str <> "" ->
                        r !! k = Some (Some (trim str)))).
Proof.
  intros Hs Hr Hnd _.
  apply runRegExp_inv in Hr as (s' & r0 & Hs' & Hf & ->).
  rewrite Hs in Hs'. injection Hs' as <-. split.
  - intros k. pose proof (fields_dom _ _ _ _ k Hf) as Hdom.
    rewrite lookup_empty in Hdom.
    destruct (negb (truthy (prop r0 "severity"))) eqn:Ht.
    + destruct (decide (k = "severity")) as [->|Hne].
      * rewrite lookup_insert_eq. split; [by left|by eexists].
      * rewrite lookup_insert_ne by done. rewrite Hdom.
        split; [intros [[? [=]]|?]; by right|intros [?|?]; [done|by right]].
    + rewrite Hdom. split; [intros [[? [=]]|?]; by right|].
      intros [->|?]; [|by right]. apply negb_false_iff in Ht. unfold prop in Ht.
      rewrite <- Hdom. by destruct (r0 !! "severity") as [[[|c t]|]|].
  - intros k g Hin Hk.
    destruct (fields_lookup_field _ _ _ _ _ _ Hf Hnd Hin Hk)
      as (str & Hg & Hne & Hg0 & Hl).
    exists str. do 3 (split; [done|]). intros Hcase.
    destruct (negb (truthy (prop r0 "severity"))) eqn:Ht; [|done].
    destruct (decide (k = "severity")) as [->|Hks].
    + destruct Hcase as [?|Htrim]; [done|]. unfold prop in Ht. rewrite Hl in Ht.
      by destruct (trim str).
    + by rewrite lookup_insert_ne.
Qed.


(** X5.  The two revisions of [runRegExp] give the same result on every
    line, pattern and matcher. *)
Theorem runRegExp_typed_agrees (re : RegExp) (line : string) (p : Pattern)
    (m : Matcher) :
  runRegExp_typed re line p m = runRegExp re line p m.
Proof.
  unfold runRegExp_typed, runRegExp.
  destruct (String_match line re) as [s|]; [|done].
  by rewrite runRegExp_keys_eq.
Qed.

End Records.

(** ** What the result depends on, and how single matching composes *)

Section Composition.

Context `{E : RegExpEngine}.

Lemma runRegExp_ext re line p p' m m' :
  fields p = fields p' -> severity m = severity m' ->
  runRegExp re line p m = runRegExp re line p' m'.
Proof. intros Hf Hs. unfold runRegExp. by rewrite Hf, Hs. Qed.

Lemma singleMatch_lines_ext re p p' m m' ls acc :
  fields p = fields p' -> severity m = severity m' ->
  singleMatch_lines re p m ls acc = singleMatch_lines re p' m' ls acc.
Proof.
  intros Hf Hs. revert acc. induction ls as [|l ls IH]; intros acc; simpl; [done|].
  rewrite (runRegExp_ext re l p p' m m') by done.
  destruct (runRegExp re l p' m') as [[r|]|]; simpl; auto.
Qed.

(** X6.  The engine reads [severity] and [pattern] of the matcher and
    nothing else: two matchers that agree on them give the same outcome on
    every input. *)
Theorem match_reads_severity_and_pattern (m m' : Matcher) (input : string) :
  severity m = severity m' -> pattern m = pattern m' ->
  match_ m input = match_ m' input.
Proof.
  destruct m as [o sev ps], m' as [o' sev' ps']. simpl. intros -> ->.
  exact (match_owner o {| owner := o'; severity := sev'; pattern := ps' |} input).
Qed.

(** X7.  With exactly one pattern the [loop] flag is not read: two
    single-pattern matchers whose patterns differ in [loop] only give the
    same outcome. *)
Theorem single_pattern_ignores_loop (m m' : Matcher) (p p' : Pattern)
    (input : string) :
  pattern m = [p] -> pattern m' = [p'] ->
  regexp p = regexp p' -> fields p = fields p' ->
  severity m = severity m' ->
  match_ m input = match_ m' input.
Proof.
  intros Hp Hp' Hre Hf Hs.
  rewrite (match_single m p input Hp), (match_single m' p' input Hp'), Hre.
  f_equal. by apply singleMatch_lines_ext.
Qed.

Lemma singleMatch_lines_no_throw re p m pre rest acc :
  Forall (fun l => exists r, runRegExp re l p m = Ok r) pre ->
  exists acc', singleMatch_lines re p m (pre ++ rest) acc
               = singleMatch_lines re p m rest acc'.
Proof.
  intros H. revert acc. induction H as [|l pre [r Hr] _ IH]; intros acc; simpl.
  - by exists acc.
  - rewrite Hr. simpl. destruct r; apply IH.
Qed.

(** X8.  Single matching stops at the first line whose projection throws:
    that error is the outcome, whatever the lines after it are and whatever
    was collected before. *)
Theorem singleMatch_first_error (m : Matcher) (p : Pattern) (input : string)
    (pre rest : list string) (l msg : string) :
  pattern m = [p] ->
  split_lines input = pre ++ l :: rest ->
  Forall (fun l' => exists r, runRegExp (RegExp_new (regexp p)) l' p m = Ok r) pre ->
  runRegExp (RegExp_new (regexp p)) l p m = Throw msg ->
  match_ m input = Some (Throw msg).
Proof.
  intros Hp Hsplit Hpre Hl. rewrite (match_single m p input Hp), Hsplit.
  destruct (singleMatch_lines_no_throw _ p m pre (l :: rest) [] Hpre) as [acc' ->].
  simpl. by rewrite Hl.
Qed.

Lemma split_first_app a b :
  split_first (a +:+ String newline b)
  = ((split_first a).1, (split_first a).2 ++ split_lines b).
Proof.
  induction a as [|c a IH]; simpl.
  - unfold split_lines. by destruct (split_first b).
  - rewrite IH. destruct (split_first a) as [l ls]. simpl.
    by destruct (Ascii.eqb c newline).
Qed.

Lemma split_lines_app a b :
  split_lines (a +:+ String newline b) = split_lines a ++ split_lines b.
Proof.
  unfold split_lines at 1 2. rewrite split_first_app.
  by destruct (split_first a).
Qed.

Lemma singleMatch_lines_acc re p m ls acc :
  singleMatch_lines re p m ls acc
  = (out ← singleMatch_lines re p m ls []; Ok (acc ++ out)).
Proof.
  revert acc. induction ls as [|l ls IH]; intros acc; simpl.
  - by rewrite app_nil_r.
  - destruct (runRegExp re l p m) as [[r|]|]; simpl; [|apply IH|done].
    rewrite (IH (acc ++ [r])), (IH [r]).
    destruct (singleMatch_lines re p m ls []) as [out|]; simpl; [|done].
    by rewrite <- app_assoc.
Qed.

Lemma singleMatch_lines_app re p m la lb acc :
  singleMatch_lines re p m (la ++ lb) acc
  = (acc' ← singleMatch_lines re p m la acc; singleMatch_lines re p m lb acc').
Proof.
  revert acc. induction la as [|l la IH]; intros acc; simpl; [done|].
  destruct (runRegExp re l p m) as [[r|]|]; simpl; auto.
Qed.

(** X9.  Single matching works line by line, so it distributes over
    joining two inputs with a newline: the records of the first followed by
    the records of the second, or the first error met. *)
Theorem singleMatch_joined_inputs (m : Matcher) (p : Pattern) (a b : string) :
  pattern m = [p] ->
  (forall oa ob,
     match_ m a = Some (Ok oa) -> match_ m b = Some (Ok ob) ->
     match_ m (a +:+ String newline b) = Some (Ok (oa ++ ob)))
  /\ (forall msg,
        match_ m a = Some (Throw msg) ->
        match_ m (a +:+ String newline b) = Some (Throw msg))
  /\ (forall oa msg,
        match_ m a = Some (Ok oa) -> match_ m b = Some (Throw msg) ->
        match_ m (a +:+ String newline b) = Some (Throw msg)).
Proof.
  intros Hp. rewrite !(match_single m p _ Hp), split_lines_app.
  rewrite singleMatch_lines_app.
  split; [|split].
  - intros oa ob [= ->] [= Hb]. f_equal. simpl.
    rewrite singleMatch_lines_acc, Hb. done.
  - by intros msg [= ->].
  - intros oa msg [= ->] [= Hb]. f_equal. simpl.
    rewrite singleMatch_lines_acc, Hb. done.
Qed.

End Composition.

(** ** More on loop matching *)

Section LoopMode.

Context `{E : RegExpEngine}.

Lemma runRegExp_some_match re line p m r :
  runRegExp re line p m = Ok (Some r) -> is_Some (String_match line re).
Proof.
  unfold runRegExp. by destruct (String_match line re) as [s|]; [eexists|].
Qed.

Lemma attributed_count (P : string -> MatchResult -> Prop) (Q : string -> Prop)
    `{!forall l, Decision (Q l)} ls out :
  (forall l rec, P l rec -> Q l) ->
  attributed P ls out -> (length out <= length (filter Q ls))%nat.
Proof.
  intros HPQ. induction 1 as [|l ls out _ IH|l ls rec out HP _ IH]; simpl.
  - lia.
  - rewrite filter_cons. destruct (decide (Q l)); simpl; lia.
  - rewrite filter_cons_True by eauto. simpl. lia.
Qed.

(** The first line of the queue is the context line of an iteration: the
    records are attributed to the lines after it. *)
Lemma loop_outer_attributed_rest m fuel line rest acc out :
  loop_outer fuel m (line :: rest) acc = Some (Ok out) ->
  exists new,
    out = acc ++ new
    /\ attributed (fun l rec => exists x, In x (pattern m) /\ emitted_by m x l rec)
         rest new.
Proof.
  destruct fuel as [|fuel]; [done|]. simpl.
  destruct (run_patterns m (pattern m) ∅ (Some line) rest acc)
    as [[lines' acc']|] eqn:Hr; [|done].
  intros H. apply run_patterns_attributed in Hr as (consumed & new & -> & -> & Hat).
  apply loop_outer_attributed in H as (new' & -> & Hat').
  exists (new ++ new'). rewrite <- app_assoc. split; [done|].
  by apply attributed_app.
Qed.


(** X10.  Loop matching yields at most one record per non-blank line,
    after the first line of the input, that the loop pattern's regular
    expression matches; in particular fewer records than the input has
    lines. *)
Theorem loop_record_count (m : Matcher) (ctxs : list Pattern) (lp : Pattern)
    (input : string) (out : list MatchResult) :
  pattern m = ctxs ++ [lp] ->
  Forall (fun x => is_loop x = false) ctxs ->
  is_loop lp = true ->
  loopMatch m input = Some (Ok out) ->
  (length out
   <= length (filter (fun l => l <> "" /\ is_Some (String_match l (RegExp_new (regexp lp))))
                (tail (split_lines input))))%nat
  /\ (length out < length (split_lines input))%nat.
Proof.
  intros Hp Hctx Hlp H. unfold loopMatch in H.
  destruct (split_lines input) as [|cl rest] eqn:Hsplit.
  { unfold split_lines in Hsplit. by destruct (split_first input). }
  apply loop_outer_attributed_rest in H as (new & -> & Hat). simpl.
  assert (Hle : (length new
    <= length (filter (fun l => l <> "" /\ is_Some (String_match l (RegExp_new (regexp lp))))
                 rest))%nat).
  { eapply attributed_count; [|exact Hat].
    intros l rec (x & Hx & Hl & Hloop & r & context & Hr & _). split; [done|].
    rewrite Hp in Hx. apply in_app_or in Hx as [Hx|[<-|[]]].
    - rewrite Forall_forall in Hctx. apply list_elem_of_In in Hx.
      by rewrite (Hctx _ Hx) in Hloop.
    - by eapply runRegExp_some_match. }
  split; [done|].
  pose proof (length_filter
    (fun l => l <> "" /\ is_Some (String_match l (RegExp_new (regexp lp)))) rest).
  lia.
Qed.


Lemma union_context_severity (r context : MatchResult) (v : option string) :
  is_Some (r !! "severity") ->
  r ∪ <["severity" := v]> context = r ∪ context.
Proof.
  intros [w Hw]. apply map_eq. intros k. rewrite !lookup_union.
  destruct (decide (k = "severity")) as [->|Hne].
  - rewrite Hw, lookup_insert_eq. by destruct (context !! "severity").
  - by rewrite lookup_insert_ne.
Qed.

(** X12.  A [severity] held by the context never reaches the output: the
    projection of the loop pattern always has a [severity] of its own
    (possibly [undefined]), which wins.  So the loop phase does the same
    whatever [severity] the context holds. *)
Theorem loop_phase_ignores_context_severity (re : RegExp) (x : Pattern)
    (m : Matcher) (context : MatchResult) (v : option string)
    (lines : list string) (acc : list MatchResult) :
  loop_phase re x m (<["severity" := v]> context) lines acc
  = loop_phase re x m context lines acc.
Proof.
  revert acc. induction lines as [|l lines IH]; intros acc; simpl; [done|].
  destruct (String.eqb l ""); [apply IH|].
  destruct (runRegExp re l x m) as [[r|]|] eqn:Hr; simpl; [|done|done].
  rewrite union_context_severity; [apply IH|].
  destruct (runRegExp_severity_cases _ _ _ _ _ Hr) as [->|(w & -> & _)]; by eexists.
Qed.

(** X13.  Whatever the patterns are, the loop over the patterns takes
    lines from the front of the queue only and only appends to the matches:
    what it returns is a suffix of the queue and an extension of the
    matches by at most one record per line taken. *)
Theorem run_patterns_queue_suffix (m : Matcher) (ps : list Pattern)
    (context : MatchResult) (line : option string) (lines lines' : list string)
    (acc acc' : list MatchResult) :
  run_patterns m ps context line lines acc = Ok (lines', acc') ->
  exists consumed new,
    lines = consumed ++ lines' /\ acc' = acc ++ new
    /\ (length new <= length consumed)%nat.
Proof.
  intros H. apply run_patterns_attributed in H as (consumed & new & -> & -> & Hat).
  exists consumed, new. do 2 (split; [done|]). by eapply attributed_length.
Qed.

(** X14.  A loop pattern that is not the last pattern leaves no line for
    the pattern after it when its loop phase empties the queue: reading the
    line fails and the engine throws. *)
Theorem loop_before_last_runs_dry (m : Matcher) (x lp : Pattern)
    (ps : list Pattern) (input cl : string) (rest : list string)
    (r0 : option MatchResult) :
  pattern m = x :: ps -> ps <> [] ->
  last (pattern m) = Some lp -> is_loop lp = true ->
  is_loop x = true ->
  split_lines input = cl :: rest ->
  runRegExp (RegExp_new (regexp x)) cl x m = Ok r0 ->
  Forall (consumable (RegExp_new (regexp x)) x m) rest ->
  match_ m input = Some (Throw (undefined_read_msg "match")).
Proof.
  intros Hp Hne Hlast Hlp Hx Hsplit Hr0 Hrest.
  unfold match_, validateMatcher. rewrite Hlast, Hlp, Hp.
  destruct ps as [|y ps]; [done|]. simpl.
  unfold loopMatch. rewrite Hsplit. simpl. rewrite Hp. simpl.
  rewrite Hr0. simpl. rewrite Hx. simpl.
  by rewrite loop_phase_exhausted.
Qed.

End LoopMode.

(** ** Matchers of the documented shape *)

Section Shape.

Context `{E : RegExpEngine}.

Lemma no_loop_before_last ctxs lp :
  Forall (fun x => is_loop x = false) ctxs -> ~ loop_before_last (ctxs ++ [lp]).
Proof.
  intros Hctx (pre & x & post & Heq & Hx & Hpost).
  destruct (exists_last Hpost) as (post' & z & ->).
  change (pre ++ x :: post' ++ [z]) with (pre ++ (x :: post') ++ [z]) in Heq.
  rewrite app_assoc in Heq. apply app_inj_tail in Heq as [-> _].
  apply Forall_app in Hctx as [_ Hctx]. apply Forall_cons in Hctx as [Hx' _].
  congruence.
Qed.

(** A matcher with a single pattern, or with non-loop patterns followed by
    a loop pattern, fails on a field of one of its patterns only. *)
Lemma shaped_match_throw (m : Matcher) (ctxs : list Pattern) (lp : Pattern)
    (input msg : string) :
  pattern m = ctxs ++ [lp] ->
  Forall (fun x => is_loop x = false) ctxs ->
  ctxs = [] \/ is_loop lp = true ->
  match_ m input = Some (Throw msg) ->
  exists x k g,
    In x (pattern m) /\ In (k, g) (fields x) /\ is_reserved k = false
    /\ ((g = 0 /\ msg = group0_msg) \/ (g <> 0 /\ msg = invalid_group_msg g k)).
Proof.
  intros Hp Hctx Hshape H.
  assert (Hfield : forall x, In x (pattern m) -> projector_error x msg ->
    exists x k g,
      In x (pattern m) /\ In (k, g) (fields x) /\ is_reserved k = false
      /\ ((g = 0 /\ msg = group0_msg) \/ (g <> 0 /\ msg = invalid_group_msg g k))).
  { intros x Hx [[-> (k & Hin & Hk)]|(k & g & Hin & Hk & Hg & ->)].
    - exists x, k, 0. do 3 (split; [done|]). by left.
    - exists x, k, g. do 3 (split; [done|]). by right. }
  destruct (match_dispatch m input)
    as [[Hnil Hm]|[(p & Hp' & Hm)|[(lp' & Hlen & Hlast & Hlp & Hm)|(lp' & Hlen & Hlast & Hlp & Hm)]]];
    rewrite Hm in H.
  - rewrite Hp in Hnil. by destruct ctxs.
  - injection H as H. apply singleMatch_lines_throw in H as (l & _ & Hl).
    apply (Hfield p); [rewrite Hp'; by left|by eapply runRegExp_throw_kind].
  - unfold loopMatch in H. apply loop_outer_throw in H.
    destruct H as [(x & Hx & Hkind)|[_ Hlb]]; [by eapply Hfield|].
    rewrite Hp in Hlb. by apply no_loop_before_last in Hlb.
  - rewrite Hp in Hlen, Hlast. rewrite last_snoc in Hlast. injection Hlast as <-.
    destruct Hshape as [->|Hlp']; [simpl in Hlen; lia|congruence].
Qed.





End Shape.

(** ** The further properties on concrete matchers and inputs *)






(** The projection of [line_entry2] with [entry_pattern]. *)
Definition entry2_projection : MatchResult :=
  {[ "line" := Some "5"; "column" := Some "10"; "severity" := Some "warning";
     "message" := Some "unused var"; "code" := Some "no-unused-vars" ]}.

Definition looping_colon_pattern : Pattern :=
  {| regexp := re_colon; loop := Some true;
     fields := [("message", 1); ("file", 2); ("line", 3)] |}.

Definition looping_colon_matcher : Matcher :=
  {| owner := Some "Deno.test-matcher"; severity := Some "Error";
     pattern := [looping_colon_pattern] |}.



(** Two loop patterns. *)
Definition double_loop_matcher : Matcher :=
  {| owner := Some "eslint-stylish"; severity := None;
     pattern := [entry_pattern; entry_pattern] |}.

Definition three_lines : string :=
  String.concat (String newline "") ["no match here"; line_colon; "foo.js"].

Definition two_lines : string :=
  String.concat (String newline "") ["foo.js"; line_entry1].

Lemma runRegExp_record_witness :
  String_match line_entry2 (RegExp_new re_entry)
    = Some [Some line_entry2; Some "5"; Some "10"; Some "warning";
            Some "unused var   "; Some "no-unused-vars"]
  /\ runRegExp (RegExp_new re_entry) line_entry2 entry_pattern eslintLoopMatcher
     = Ok (Some entry2_projection)
  /\ NoDup (map fst (fields entry_pattern))
  /\ ~ In "__proto__" (map fst (fields entry_pattern))
  /\ (forall k : string,
        is_Some (entry2_projection !! k)
        <-> k = "severity"
            \/ exists g, In (k, g) (fields entry_pattern) /\ is_reserved k = false).
Proof.
  assert (H2 : runRegExp (RegExp_new re_entry) line_entry2 entry_pattern
                 eslintLoopMatcher = Ok (Some entry2_projection))
    by (vm_compute; reflexivity).
  assert (H3 : NoDup (map fst (fields entry_pattern))).
  { apply (bool_decide_unpack _). vm_compute. exact I. }
  assert (H4 : ~ In "__proto__" (map fst (fields entry_pattern))).
  { simpl. intros [H|[H|[H|[H|[H|[]]]]]]; discriminate H. }
  split; [reflexivity|]. split; [exact H2|]. split; [exact H3|].
  split; [exact H4|].
  exact (proj1 (runRegExp_record (RegExp_new re_entry) line_entry2 entry_pattern
    eslintLoopMatcher _ entry2_projection eq_refl H2 H3 H4)).
Defined.


Lemma match_reads_severity_and_pattern_witness :
  severity ownerless_matcher = severity validMatcher
  /\ pattern ownerless_matcher = pattern validMatcher
  /\ match_ ownerless_matcher line_colon = match_ validMatcher line_colon.
Proof.
  split; [reflexivity|]. split; [reflexivity|].
  exact (match_reads_severity_and_pattern ownerless_matcher validMatcher line_colon
           eq_refl eq_refl).
Defined.

Lemma single_pattern_ignores_loop_witness :
  pattern looping_colon_matcher = [looping_colon_pattern]
  /\ pattern validMatcher = [colon_pattern]
  /\ regexp looping_colon_pattern = regexp colon_pattern
  /\ fields looping_colon_pattern = fields colon_pattern
  /\ severity looping_colon_matcher = severity validMatcher
  /\ match_ looping_colon_matcher line_colon = match_ validMatcher line_colon.
Proof.
  do 5 (split; [reflexivity|]).
  exact (single_pattern_ignores_loop looping_colon_matcher validMatcher
           looping_colon_pattern colon_pattern line_colon
           eq_refl eq_refl eq_refl eq_refl eq_refl).
Defined.

Lemma singleMatch_first_error_witness :
  pattern group0_matcher = [group0_pattern]
  /\ split_lines three_lines = ["no match here"] ++ line_colon :: ["foo.js"]
  /\ Forall (fun l' => exists r,
               runRegExp (RegExp_new (regexp group0_pattern)) l' group0_pattern
                 group0_matcher = Ok r) ["no match here"]
  /\ runRegExp (RegExp_new (regexp group0_pattern)) line_colon group0_pattern
       group0_matcher = Throw group0_msg
  /\ match_ group0_matcher three_lines = Some (Throw group0_msg).
Proof.
  assert (H3 : Forall (fun l' => exists r,
               runRegExp (RegExp_new (regexp group0_pattern)) l' group0_pattern
                 group0_matcher = Ok r) ["no match here"]).
  { constructor; [exists None; reflexivity|constructor]. }
  split; [reflexivity|]. split; [reflexivity|]. split; [exact H3|].
  split; [reflexivity|].
  exact (singleMatch_first_error group0_matcher group0_pattern three_lines
           ["no match here"] ["foo.js"] line_colon group0_msg
           eq_refl eq_refl H3 eq_refl).
Defined.

Lemma singleMatch_joined_inputs_witness :
  pattern validMatcher = [colon_pattern]
  /\ match_ validMatcher (line_colon +:+ String newline "no match here")
     = Some (Ok ([colon_record] ++ [])).
Proof.
  split; [reflexivity|].
  refine (proj1 (singleMatch_joined_inputs validMatcher colon_pattern line_colon
    "no match here" eq_refl) [colon_record] [] _ _).
  - vm_compute. reflexivity.
  - reflexivity.
Defined.

Lemma loop_record_count_witness :
  pattern eslintLoopMatcher = [file_pattern] ++ [entry_pattern]
  /\ Forall (fun x => is_loop x = false) [file_pattern]
  /\ is_loop entry_pattern = true
  /\ loopMatch eslintLoopMatcher sample_report = Some (Ok sample_records)
  /\ (length sample_records
      <= length (filter (fun l => l <> ""
                                  /\ is_Some (String_match l (RegExp_new (regexp entry_pattern))))
                   (tail (split_lines sample_report))))%nat
  /\ (length sample_records < length (split_lines sample_report))%nat.
Proof.
  assert (H2 : Forall (fun x => is_loop x = false) [file_pattern])
    by (repeat constructor).
  assert (H : loopMatch eslintLoopMatcher sample_report = Some (Ok sample_records))
    by (vm_compute; reflexivity).
  split; [reflexivity|]. split; [exact H2|]. split; [reflexivity|].
  split; [exact H|].
  exact (loop_record_count eslintLoopMatcher [file_pattern] entry_pattern
           sample_report sample_records eq_refl H2 eq_refl H).
Defined.


Lemma run_patterns_queue_suffix_witness :
  run_patterns eslintLoopMatcher (pattern eslintLoopMatcher) ∅ (Some "foo.js")
    [line_entry1; ""; line_entry2; "bar.js"; line_entry3] []
  = Ok (["bar.js"; line_entry3],
        [ entry_record "foo.js" "1" "0" "error" "bad" "strict";
          entry_record "foo.js" "5" "10" "warning" "unused var" "no-unused-vars" ])
  /\ exists consumed new,
       [line_entry1; ""; line_entry2; "bar.js"; line_entry3]
       = consumed ++ ["bar.js"; line_entry3]
       /\ [ entry_record "foo.js" "1" "0" "error" "bad" "strict";
            entry_record "foo.js" "5" "10" "warning" "unused var" "no-unused-vars" ]
          = [] ++ new
       /\ (length new <= length consumed)%nat.
Proof.
  assert (H : run_patterns eslintLoopMatcher (pattern eslintLoopMatcher) ∅
    (Some "foo.js") [line_entry1; ""; line_entry2; "bar.js"; line_entry3] []
  = Ok (["bar.js"; line_entry3],
        [ entry_record "foo.js" "1" "0" "error" "bad" "strict";
          entry_record "foo.js" "5" "10" "warning" "unused var" "no-unused-vars" ]))
    by (vm_compute; reflexivity).
  split; [exact H|].
  exact (run_patterns_queue_suffix eslintLoopMatcher _ _ _ _ _ _ _ H).
Defined.

Lemma loop_before_last_runs_dry_witness :
  pattern double_loop_matcher = entry_pattern :: [entry_pattern]
  /\ [entry_pattern] <> []
  /\ last (pattern double_loop_matcher) = Some entry_pattern
  /\ is_loop entry_pattern = true
  /\ split_lines two_lines = "foo.js" :: [line_entry1]
  /\ runRegExp (RegExp_new (regexp entry_pattern)) "foo.js" entry_pattern
       double_loop_matcher = Ok None
  /\ Forall (consumable (RegExp_new (regexp entry_pattern)) entry_pattern
               double_loop_matcher) [line_entry1]
  /\ match_ double_loop_matcher two_lines
     = Some (Throw (undefined_read_msg "match")).
Proof.
  assert (H2 : [entry_pattern] <> []) by discriminate.
  assert (H8 : Forall (consumable (RegExp_new (regexp entry_pattern)) entry_pattern
               double_loop_matcher) [line_entry1]).
  { constructor; [right; eexists; vm_compute; reflexivity|constructor]. }
  split; [reflexivity|]. split; [exact H2|]. do 4 (split; [reflexivity|]).
  split; [exact H8|].
  exact (loop_before_last_runs_dry double_loop_matcher entry_pattern entry_pattern
           [entry_pattern] two_lines "foo.js" [line_entry1] None
           eq_refl H2 eq_refl eq_refl eq_refl eq_refl eq_refl H8).
Defined.


(** * The engine on the values a caller can pass

    The embedding above takes [matcher.pattern] to be an array and every
    [regexp] to be a valid source.  A JavaScript caller can also pass a
    [pattern] that is not an array, which [validateMatcher] rejects, and a
    [regexp] that [new RegExp] rejects with a [SyntaxError].  This part
    embeds the same functions with these two paths; the matcher is still
    an object, its patterns are pattern objects and the input is a
    string. *)

(** What [matcher.pattern] holds. *)
Inductive pattern_value : Type :=
| NotAnArray
| PatternArray (ps : list Pattern).

Record MatcherValue : Type := {
  value_owner : option string;
  value_severity : option string;
  value_pattern : pattern_value
}.

(** The matcher as the functions after the validator read it. *)
Definition as_matcher (mv : MatcherValue) : Matcher :=
  {| owner := value_owner mv;
     severity := value_severity mv;
     pattern := match value_pattern mv with
                | PatternArray ps => ps
                | NotAnArray => []
                end |}.

(** Integers that a JavaScript number holds exactly, and prints digit by
    digit. *)
Definition safe_index (g : Z) : Prop := Z.abs g < 2 ^ 53.

Definition safe_indexes (ps : list Pattern) : Prop :=
  Forall (fun x => Forall (fun kv : string * Z => safe_index kv.2) (fields x)) ps.

Section Values.

Context `{E : RegExpEngine}.

(** [syntax_error source] is the message of the [SyntaxError] that
    [new RegExp(source)] throws, [None] when [source] is valid. *)
Variable syntax_error : string -> option string.

(** [new RegExp(source)] *)
Definition RegExp_construct (source : string) : result RegExp :=
  match syntax_error source with
  | Some msg => Throw msg
  | None => Ok (RegExp_new source)
  end.

Definition validateMatcher_value (mv : MatcherValue) : result unit :=
  match value_pattern mv with
  | NotAnArray => Throw pattern_array_msg
  | PatternArray ps =>
      if (length ps <? 1)%nat then Throw pattern_array_msg else Ok tt
  end.

Definition singleMatch_value (m : Matcher) (input : string)
    : result (list MatchResult) :=
  match pattern m with
  | [] => Throw (undefined_read_msg "regexp")
  | p :: _ =>
      re ← RegExp_construct (regexp p);
      singleMatch_lines re p m (split_lines input) []
  end.

Fixpoint run_patterns_value (m : Matcher) (patterns : list Pattern)
    (context : MatchResult) (line : option string) (lines : list string)
    (matches : list MatchResult) : result (list string * list MatchResult) :=
  match patterns with
  | [] => Ok (lines, matches)
  | x :: patterns' =>
      re ← RegExp_construct (regexp x);
      r ← match line with
          | Some line => runRegExp re line x m
          | None => Throw (undefined_read_msg "match")
          end;
      if negb (is_loop x)
      then run_patterns_value m patterns' (spread context r) line lines matches
      else
        '(line', lines', matches') ← loop_phase re x m context lines matches;
        run_patterns_value m patterns' context line' lines' matches'
  end.

Fixpoint loop_outer_value (fuel : nat) (m : Matcher) (lines : list string)
    (matches : list MatchResult) : option (result (list MatchResult)) :=
  match lines with
  | [] => Some (Ok matches)
  | line :: rest =>
      match fuel with
      | O => None
      | S fuel' =>
          match run_patterns_value m (pattern m) ∅ (Some line) rest matches with
          | Throw msg => Some (Throw msg)
          | Ok (lines', matches') => loop_outer_value fuel' m lines' matches'
          end
      end
  end.

Definition loopMatch_value (m : Matcher) (input : string)
    : option (result (list MatchResult)) :=
  let lines := split_lines input in
  loop_outer_value (length lines) m lines [].

(** The default export. *)
Definition match_value (mv : MatcherValue) (input : string)
    : option (result (list MatchResult)) :=
  match validateMatcher_value mv with
  | Throw msg => Some (Throw msg)
  | Ok _ =>
      let m := as_matcher mv in
      if (length (pattern m) =? 1)%nat then Some (singleMatch_value m input)
      else
        match last (pattern m) with
        | None => Some (Throw (undefined_read_msg "loop"))
        | Some loopPattern =>
            if is_loop loopPattern then loopMatch_value m input
            else Some (Throw unsupported_msg)
        end
  end.

Definition valid_regexps (ps : list Pattern) : Prop :=
  Forall (fun x => syntax_error (regexp x) = None) ps.

(** With valid sources the functions are those of the embedding above. *)
Lemma RegExp_construct_valid source :
  syntax_error source = None -> RegExp_construct source = Ok (RegExp_new source).
Proof. intros H. unfold RegExp_construct. by rewrite H. Qed.

Lemma run_patterns_value_valid m ps ctx line lines acc :
  valid_regexps ps ->
  run_patterns_value m ps ctx line lines acc = run_patterns m ps ctx line lines acc.
Proof.
  intros Hv. revert ctx line lines acc.
  induction Hv as [|x ps Hx _ IH]; intros ctx line lines acc; simpl; [done|].
  rewrite (RegExp_construct_valid _ Hx). simpl.
  destruct (match line with Some l => runRegExp _ l x m | None => _ end) as [r|];
    simpl; [|done].
  destruct (is_loop x); simpl; [|apply IH].
  destruct (loop_phase _ x m ctx lines acc) as [[[l1 lines1] acc1]|]; simpl; auto.
Qed.

Lemma loop_outer_value_valid fuel m lines acc :
  valid_regexps (pattern m) ->
  loop_outer_value fuel m lines acc = loop_outer fuel m lines acc.
Proof.
  intros Hv. revert lines acc. induction fuel as [|fuel IH]; intros lines acc; [done|].
  destruct lines as [|line rest]; simpl; [done|].
  rewrite run_patterns_value_valid by done.
  destruct (run_patterns m (pattern m) ∅ (Some line) rest acc) as [[l1 acc1]|]; auto.
Qed.

Lemma match_value_valid mv ps input :
  value_pattern mv = PatternArray ps -> valid_regexps ps ->
  match_value mv input = match_ (as_matcher mv) input.
Proof.
  intros Hp Hv.
  assert (Hm : pattern (as_matcher mv) = ps) by (unfold as_matcher; by rewrite Hp).
  unfold match_value, match_, validateMatcher_value, validateMatcher.
  cbv zeta. rewrite Hp, Hm.
  destruct (length ps <? 1)%nat; [done|].
  destruct (length ps =? 1)%nat.
  - unfold singleMatch_value, singleMatch. rewrite Hm.
    destruct Hv as [|p ps' Hp' _]; [done|].
    by rewrite (RegExp_construct_valid _ Hp').
  - destruct (last ps) as [lp|]; [|done]. destruct (is_loop lp); [|done].
    unfold loopMatch_value, loopMatch. apply loop_outer_value_valid.
    by rewrite Hm.
Qed.

Lemma run_patterns_value_throw m ps ctx line lines acc msg :
  run_patterns_value m ps ctx line lines acc = Throw msg ->
  (exists x, In x ps /\ syntax_error (regexp x) = Some msg)
  \/ (exists x, In x ps /\ projector_error x msg)
  \/ (msg = undefined_read_msg "match"
      /\ ((line = None /\ ps <> []) \/ loop_before_last ps)).
Proof.
  revert ctx line lines acc.
  induction ps as [|x ps IH]; intros ctx line lines acc H; simpl in H; [done|].
  assert (Htail : forall ctx' line' lines' acc',
    (line' = None -> is_loop x = true) ->
    run_patterns_value m ps ctx' line' lines' acc' = Throw msg ->
    (exists x0, In x0 (x :: ps) /\ syntax_error (regexp x0) = Some msg)
    \/ (exists x0, In x0 (x :: ps) /\ projector_error x0 msg)
    \/ (msg = undefined_read_msg "match"
        /\ ((line = None /\ x :: ps <> []) \/ loop_before_last (x :: ps)))).
  { intros ctx' line' lines' acc' Hnone H'.
    destruct (IH _ _ _ _ H') as [(x0 & Hin & Hx0)|[(x0 & Hin & Hx0)|[-> [[-> Hps]|Hlb]]]].
    - left. exists x0. split; [by right|done].
    - right. left. exists x0. split; [by right|done].
    - right. right. split; [done|]. right. exists [], x, ps. by rewrite Hnone.
    - right. right. split; [done|]. right. by apply loop_before_last_cons. }
  unfold RegExp_construct in H.
  destruct (syntax_error (regexp x)) as [e|] eqn:He; simpl in H.
  { injection H as <-. left. exists x. split; [by left|done]. }
  destruct line as [l|]; simpl in H.
  2:{ injection H as <-. right. right. split; [done|]. by left. }
  destruct (runRegExp (RegExp_new (regexp x)) l x m) as [r|] eqn:Hr; simpl in H.
  2:{ injection H as <-. right. left. exists x. split; [by left|].
      by eapply runRegExp_throw_kind. }
  destruct (is_loop x) eqn:Hx; simpl in H.
  - destruct (loop_phase (RegExp_new (regexp x)) x m ctx lines acc)
      as [[[l1 lines1] acc1]|] eqn:Hp; simpl in H.
    + by eapply Htail.
    + injection H as <-. apply loop_phase_throw in Hp as (l' & _ & _ & Hl').
      right. left. exists x. split; [by left|]. by eapply runRegExp_throw_kind.
  - eapply Htail; [|exact H]. done.
Qed.

Lemma loop_outer_value_throw fuel m lines acc msg :
  loop_outer_value fuel m lines acc = Some (Throw msg) ->
  (exists x, In x (pattern m) /\ syntax_error (regexp x) = Some msg)
  \/ (exists x, In x (pattern m) /\ projector_error x msg)
  \/ (msg = undefined_read_msg "match" /\ loop_before_last (pattern m)).
Proof.
  revert lines acc. induction fuel as [|fuel IH]; intros lines acc H.
  - by destruct lines.
  - destruct lines as [|line rest]; simpl in H; [done|].
    destruct (run_patterns_value m (pattern m) ∅ (Some line) rest acc)
      as [[lines' acc']|] eqn:Hr; [by eapply IH|].
    injection H as <-.
    destruct (run_patterns_value_throw _ _ _ _ _ _ _ Hr) as [?|[?|[-> [[? _]|?]]]];
      auto. done.
Qed.

(** The four ways of the validator and the dispatcher. *)
Lemma match_value_dispatch (mv : MatcherValue) (input : string) :
  ((value_pattern mv = NotAnArray \/ value_pattern mv = PatternArray [])
   /\ match_value mv input = Some (Throw pattern_array_msg))
  \/ (exists p, value_pattern mv = PatternArray [p]
       /\ match_value mv input = Some (singleMatch_value (as_matcher mv) input))
  \/ (exists ps lp, value_pattern mv = PatternArray ps
        /\ (1 < length ps)%nat /\ last ps = Some lp /\ is_loop lp = true
        /\ match_value mv input = loopMatch_value (as_matcher mv) input)
  \/ (exists ps lp, value_pattern mv = PatternArray ps
        /\ (1 < length ps)%nat /\ last ps = Some lp /\ is_loop lp = false
        /\ match_value mv input = Some (Throw unsupported_msg)).
Proof.
  unfold match_value, validateMatcher_value. cbv zeta.
  destruct (value_pattern mv) as [|[|p [|p' ps]]] eqn:Hp.
  - left. split; [by left|done].
  - left. split; [by right|done].
  - right. left. exists p. split; [done|].
    assert (Hm : pattern (as_matcher mv) = [p]) by (unfold as_matcher; by rewrite Hp).
    by rewrite Hm.
  - assert (Hm : pattern (as_matcher mv) = p :: p' :: ps)
      by (unfold as_matcher; by rewrite Hp).
    rewrite Hm.
    destruct (last (p :: p' :: ps)) as [lp|] eqn:Hlast.
    2:{ by apply last_None in Hlast. }
    assert (Hlen : (1 < length (p :: p' :: ps))%nat) by (simpl; lia).
    replace ((length (p :: p' :: ps) <? 1)%nat) with false by done.
    replace ((length (p :: p' :: ps) =? 1)%nat) with false by done.
    destruct (is_loop lp) eqn:Hlp; right; right; [left|right];
      by exists (p :: p' :: ps), lp.
Qed.

(** X1.  For a matcher whose group indexes are safe integers, every error
    of the engine is one of five: the pattern-array error of the validator
    (when [pattern] is not an array or is empty), the
    unsupported-configuration error of the dispatcher, the [SyntaxError] of
    building the [RegExp] of one of the patterns, a group-0 or
    invalid-capture-group error about a field of one of the patterns, or
    the failure to read a line once a loop pattern that is not the last one
    has emptied the queue. *)
Theorem thrown_errors (mv : MatcherValue) (input : string) (msg : string) :
  (forall ps, value_pattern mv = PatternArray ps -> safe_indexes ps) ->
  match_value mv input = Some (Throw msg) ->
  (msg = pattern_array_msg
   /\ (value_pattern mv = NotAnArray \/ value_pattern mv = PatternArray []))
  \/ exists ps,
       value_pattern mv = PatternArray ps
       /\ ((msg = unsupported_msg /\ (1 < length ps)%nat
            /\ exists lp, last ps = Some lp /\ is_loop lp = false)
           \/ (exists x, In x ps /\ syntax_error (regexp x) = Some msg)
           \/ (exists x, In x ps /\ projector_error x msg)
           \/ (msg = undefined_read_msg "match" /\ loop_before_last ps)).
Proof.
  intros _ H.
  destruct (match_value_dispatch mv input)
    as [[Hp Hm]|[(p & Hp & Hm)|[(ps & lp & Hp & Hlen & Hlast & Hlp & Hm)
                               |(ps & lp & Hp & Hlen & Hlast & Hlp & Hm)]]];
    rewrite Hm in H.
  - injection H as <-. by left.
  - right. exists [p]. split; [done|]. injection H as H.
    unfold singleMatch_value, as_matcher in H. rewrite Hp in H. simpl in H.
    unfold RegExp_construct in H.
    destruct (syntax_error (regexp p)) as [e|] eqn:He; simpl in H.
    + injection H as <-. right. left. exists p. split; [by left|done].
    + apply singleMatch_lines_throw in H as (l & _ & Hl).
      right. right. left. exists p. split; [by left|].
      by eapply runRegExp_throw_kind.
  - right. exists ps. split; [done|]. unfold loopMatch_value in H.
    apply loop_outer_value_throw in H.
    unfold as_matcher in H. rewrite Hp in H. simpl in H.
    destruct H as [?|[?|?]]; auto.
  - right. exists ps. split; [done|]. injection H as <-. left.
    split; [done|]. split; [done|]. by exists lp.
Qed.

(** X2.  Provided no [SyntaxError] carries its text, the pattern-array
    error is the outcome exactly when [pattern] is not an array or is an
    empty array, and then for every input. *)
Theorem pattern_array_error_iff (mv : MatcherValue) (input : string) :
  (forall source, syntax_error source <> Some pattern_array_msg) ->
  match_value mv input = Some (Throw pattern_array_msg)
  <-> value_pattern mv = NotAnArray \/ value_pattern mv = PatternArray [].
Proof.
  intros Hsyn.
  destruct (match_value_dispatch mv input)
    as [[Hp Hm]|[(p & Hp & Hm)|[(ps & lp & Hp & Hlen & Hlast & Hlp & Hm)
                               |(ps & lp & Hp & Hlen & Hlast & Hlp & Hm)]]];
    rewrite Hm.
  - done.
  - rewrite Hp. split; [|by intros [?|?]]. intros [= H].
    unfold singleMatch_value, as_matcher in H. rewrite Hp in H. simpl in H.
    unfold RegExp_construct in H.
    destruct (syntax_error (regexp p)) as [e|] eqn:He; simpl in H.
    + injection H as ->. by destruct (Hsyn (regexp p)).
    + apply singleMatch_lines_throw in H as (l & _ & Hl).
      apply runRegExp_throw_kind, projector_error_message in Hl. by destruct Hl.
  - rewrite Hp. split.
    + intros H. unfold loopMatch_value in H. apply loop_outer_value_throw in H.
      destruct H as [(x & _ & Hx)|[(x & _ & Hx)|[? _]]]; [| |done].
      * by destruct (Hsyn (regexp x)).
      * apply projector_error_message in Hx. by destruct Hx.
    + intros [?|[= ->]]; [done|]. simpl in Hlen. lia.
  - rewrite Hp. split; [done|]. intros [?|[= ->]]; [done|]. simpl in Hlen. lia.
Qed.

(** X15.  A matcher with valid regular expressions and safe group indexes,
    made of a single pattern or of non-loop patterns followed by a loop
    pattern, can only fail on a field of one of its patterns: with the
    group-0 error when the field is mapped to 0 and with the
    invalid-capture-group error of that field otherwise. *)
Theorem shaped_matcher_errors (mv : MatcherValue) (ctxs : list Pattern)
    (lp : Pattern) (input msg : string) :
  value_pattern mv = PatternArray (ctxs ++ [lp]) ->
  Forall (fun x => is_loop x = false) ctxs ->
  ctxs = [] \/ is_loop lp = true ->
  valid_regexps (ctxs ++ [lp]) ->
  safe_indexes (ctxs ++ [lp]) ->
  match_value mv input = Some (Throw msg) ->
  exists x k g,
    In x (ctxs ++ [lp]) /\ In (k, g) (fields x) /\ is_reserved k = false
    /\ safe_index g
    /\ ((g = 0 /\ msg = group0_msg) \/ (g <> 0 /\ msg = invalid_group_msg g k)).
Proof.
  intros Hp Hctx Hshape Hvalid Hsafe H.
  rewrite (match_value_valid mv _ input Hp Hvalid) in H.
  assert (Hm : pattern (as_matcher mv) = ctxs ++ [lp])
    by (unfold as_matcher; by rewrite Hp).
  destruct (shaped_match_throw _ ctxs lp input msg Hm Hctx Hshape H)
    as (x & k & g & Hx & Hin & Hk & Hmsg).
  rewrite Hm in Hx. exists x, k, g. do 3 (split; [done|]). split; [|done].
  unfold safe_indexes in Hsafe. rewrite Forall_forall in Hsafe.
  apply list_elem_of_In in Hx. specialize (Hsafe _ Hx).
  rewrite Forall_forall in Hsafe. apply list_elem_of_In in Hin.
  exact (Hsafe _ Hin).
Qed.

End Values.

(** A source that [new RegExp] rejects, with the message of V8. *)
Definition sample_syntax_error (source : string) : option string :=
  if String.eqb source "("
  then Some "Invalid regular expression: /(/: Unterminated group"
  else None.

Definition unterminated_matcher : MatcherValue :=
  {| value_owner := Some "unterminated"; value_severity := None;
     value_pattern :=
       PatternArray [ {| regexp := "("; loop := None; fields := [("message", 1)] |} ] |}.

Definition group0_matcher_value : MatcherValue :=
  {| value_owner := Some "Deno.test-matcher"; value_severity := None;
     value_pattern := PatternArray [group0_pattern] |}.

(** The matcher of the test "invalid pattern": [pattern] is not an array. *)
Definition invalid_pattern_matcher : MatcherValue :=
  {| value_owner := Some "Deno.test"; value_severity := None;
     value_pattern := NotAnArray |}.

Lemma thrown_errors_witness :
  (forall ps, value_pattern unterminated_matcher = PatternArray ps -> safe_indexes ps)
  /\ match_value sample_syntax_error unterminated_matcher "x"
     = Some (Throw "Invalid regular expression: /(/: Unterminated group")
  /\ exists ps,
       value_pattern unterminated_matcher = PatternArray ps
       /\ exists x, In x ps
            /\ sample_syntax_error (regexp x)
               = Some "Invalid regular expression: /(/: Unterminated group".
Proof.
  assert (H1 : forall ps, value_pattern unterminated_matcher = PatternArray ps ->
                          safe_indexes ps).
  { intros ps [= <-]. repeat constructor. }
  assert (H2 : match_value sample_syntax_error unterminated_matcher "x"
     = Some (Throw "Invalid regular expression: /(/: Unterminated group"))
    by reflexivity.
  split; [exact H1|]. split; [exact H2|].
  destruct (thrown_errors sample_syntax_error unterminated_matcher "x" _ H1 H2)
    as [[Hm _]|(ps & Hp & [[Hm _]|[Hx|[(x & Hx & Hkind)|[Hm _]]]])].
  - discriminate Hm.
  - discriminate Hm.
  - exists ps. split; [exact Hp|exact Hx].
  - exfalso. injection Hp as <-. destruct Hx as [<-|[]].
    destruct Hkind as [[Hm _]|(k & g & [[= <- <-]|[]] & _ & _ & Hm)];
      discriminate Hm.
  - discriminate Hm.
Defined.

Lemma pattern_array_error_iff_witness :
  (forall source, sample_syntax_error source <> Some pattern_array_msg)
  /\ match_value sample_syntax_error invalid_pattern_matcher
       "error::Something went wrong" = Some (Throw pattern_array_msg).
Proof.
  assert (H1 : forall source, sample_syntax_error source <> Some pattern_array_msg).
  { intros source. unfold sample_syntax_error.
    destruct (String.eqb source "("); discriminate. }
  split; [exact H1|].
  exact (proj2 (pattern_array_error_iff sample_syntax_error invalid_pattern_matcher
           "error::Something went wrong" H1) (or_introl eq_refl)).
Defined.

Lemma shaped_matcher_errors_witness :
  value_pattern group0_matcher_value = PatternArray ([] ++ [group0_pattern])
  /\ Forall (fun x => is_loop x = false) []
  /\ ([] = @nil Pattern \/ is_loop group0_pattern = true)
  /\ valid_regexps sample_syntax_error ([] ++ [group0_pattern])
  /\ safe_indexes ([] ++ [group0_pattern])
  /\ match_value sample_syntax_error group0_matcher_value line_colon
     = Some (Throw group0_msg)
  /\ exists x k g,
       In x ([] ++ [group0_pattern]) /\ In (k, g) (fields x)
       /\ is_reserved k = false /\ safe_index g
       /\ ((g = 0 /\ group0_msg = group0_msg)
           \/ (g <> 0 /\ group0_msg = invalid_group_msg g k)).
Proof.
  assert (H2 : Forall (fun x => is_loop x = false) (@nil Pattern)) by constructor.
  assert (H4 : valid_regexps sample_syntax_error ([] ++ [group0_pattern]))
    by (repeat constructor).
  assert (H5 : safe_indexes ([] ++ [group0_pattern])) by (repeat constructor).
  split; [reflexivity|]. split; [exact H2|]. split; [by left|].
  split; [exact H4|]. split; [exact H5|]. split; [reflexivity|].
  exact (shaped_matcher_errors sample_syntax_error group0_matcher_value []
           group0_pattern line_colon group0_msg eq_refl H2 (or_introl eq_refl)
           H4 H5 eq_refl).
Defined.
